(** * Sliding-window rate limiter: RateLimit.service.ts

    A shallow embedding of [RateLimitService] (the hit-tracking variant of the
    service) and the properties of its window parser, of its local-memory
    fallback, of the decrement operation and of the health check.

    Conventions of the embedding.
    - A JavaScript [number] that holds a timestamp, a duration or a count is an
      integer of [Z].  The service only adds, subtracts and compares such
      numbers, which is exact on doubles while the magnitudes stay below
      2^53.  The two places where the parser makes a number out of a string,
      [parseInt] and the product with the unit, round as doubles round
      ([to_double]), so that a parsed window is the number the code gets.
    - [Date.now()], and every reply of the ioredis client, is an argument of
      the operation that consumes it.
    - The service object is a record; a method is a function from the record
      to a completion (normal or abrupt) and the record after the call, so
      that what a method wrote before it threw is still there in a handler.
    - The arrays stored in [fallbackStorage] are never shared: each one comes
      fresh out of [Array.prototype.filter] (or is the literal [[]]), so the
      in-place [pop] of [decrementRateLimit] is a plain list update. *)

From stdpp Require Import gmap strings list fin_maps.
From Stdlib Require Import ZArith Ascii.

Local Open Scope Z_scope.

(** ** Completions: [return] and [throw] *)

(** The errors the service can raise or catch.  [InvalidWindowFormat] is the
    [Error] built by [parseWindow] and carries the offending string;
    [PipelineExecFailed] is [new Error('Redis pipeline execution failed')];
    [ClientError] stands for whatever the ioredis client rejects with;
    [TypeError] is what destructuring an absent reply entry raises. *)
Inductive JsError : Type :=
  | InvalidWindowFormat (window : string)
  | PipelineExecFailed
  | ClientError (message : string)
  | TypeError.

Inductive Completion (A : Type) : Type :=
  | Normal (a : A)
  | Throw (e : JsError).
Arguments Normal {A} a.
Arguments Throw {A} e.

(** ** Window parser *)

Module Window.

(** The character class [\d] of a JavaScript regular expression without the
    [u]/[v] flags: the code units 0x30 to 0x39, each with the value
    [parseInt] gives it, its distance from 0x30. *)
Definition digit_of (c : ascii) : option Z :=
  let code := Z.of_N (N_of_ascii c) in
  if (48 <=? code) && (code <=? 57) then Some (code - 48) else None.

Definition is_digit (c : ascii) : bool :=
  match digit_of c with Some _ => true | None => false end.

(** [const units: Record<string, number> = { s: 1000, m: 60 * 1000,
    h: 60 * 60 * 1000, d: 24 * 60 * 60 * 1000 }] *)
Definition units (unit : ascii) : option Z :=
  match unit with
  | "s"%char => Some 1000
  | "m"%char => Some (60 * 1000)
  | "h"%char => Some (60 * 60 * 1000)
  | "d"%char => Some (24 * 60 * 60 * 1000)
  | _ => None
  end.

(** The character class [[smhd]]. *)
Definition is_unit_char (c : ascii) : bool :=
  match c with
  | "s"%char | "m"%char | "h"%char | "d"%char => true
  | _ => false
  end.

(** The greedy group [(\d+)]: the longest prefix of digits and what follows
    it.  No digit is a unit character, so the match never has to give a
    digit back. *)
Fixpoint take_digits (s : string) : string * string :=
  match s with
  | String c rest =>
      if is_digit c
      then let '(amount, tail) := take_digits rest in (String c amount, tail)
      else (EmptyString, s)
  | EmptyString => (EmptyString, EmptyString)
  end.

(** [window.match(/^(\d+)([smhd])$/)]: the two captures, or [None] for
    [null].  The pattern has no [m] flag, so [^] and [$] are the two ends of
    the whole input. *)
Definition window_match (window : string) : option (string * ascii) :=
  match take_digits window with
  | (String c amount, String unit EmptyString) =>
      if is_unit_char unit then Some (String c amount, unit) else None
  | _ => None
  end.

(** The Number nearest to a non-negative integer: an integer of at most 53
    significant bits times a power of two, the even one of two that are
    equally near.  (Beyond 2^1024, which takes a string of more than 308
    digits, the code has [Infinity], which [Z] cannot hold.) *)
Definition to_double (z : Z) : Z :=
  let unit := 2 ^ Z.max 0 (Z.log2 z - 52) in
  let quotient := z / unit in
  let rest := z mod unit in
  if (2 * rest <? unit) || ((2 * rest =? unit) && Z.even quotient)
  then quotient * unit
  else (quotient + 1) * unit.

(** [parseInt(amount, 10)] on a string of digits: the mathematical integer
    the digits denote (the accumulator is multiplied by the radix and the
    next digit added), then the Number nearest to it. *)
Fixpoint parseInt_from (acc : Z) (amount : string) : Z :=
  match amount with
  | String c rest =>
      match digit_of c with
      | Some d => parseInt_from (10 * acc + d) rest
      | None => acc
      end
  | EmptyString => acc
  end.

Definition parseInt (amount : string) : Z :=
  to_double (parseInt_from 0 amount).

(** [private parseWindow(window: string): number] *)
Definition parseWindow (window : string) : Completion Z :=
  match window_match window with
  | None => Throw (InvalidWindowFormat window)
  | Some (amount, unit) =>
      match units unit with
      | Some multiplier => Normal (to_double (parseInt amount * multiplier))
      | None =>
          (* not reached: [[smhd]] only lets the keys of [units] through *)
          Throw (InvalidWindowFormat window)
      end
  end.

(** *** The grammar the parser is specified against *)

Fixpoint all_digits (s : string) : bool :=
  match s with
  | String c rest => is_digit c && all_digits rest
  | EmptyString => true
  end.

(** The value of a string of digits read as a decimal numeral: each digit
    weighs ten to the number of digits after it. *)
Fixpoint decimal_value (s : string) : Z :=
  match s with
  | String c rest =>
      default 0 (digit_of c) * 10 ^ Z.of_nat (String.length rest)
      + decimal_value rest
  | EmptyString => 0
  end.

(** Milliseconds per unit. *)
Inductive multiplier_of : ascii -> Z -> Prop :=
  | mult_s : multiplier_of "s" 1000
  | mult_m : multiplier_of "m" 60000
  | mult_h : multiplier_of "h" 3600000
  | mult_d : multiplier_of "d" 86400000.

(** One or more digits followed by a single unit character. *)
Definition well_formed (window amount : string) (unit : ascii) : Prop :=
  window = amount +:+ String unit EmptyString
  /\ amount <> EmptyString
  /\ all_digits amount = true
  /\ is_unit_char unit = true.

End Window.

(** ** The service *)

Module Service.

Import Window.

(** [RateLimitOptions] (the fields the service reads) and
    [RateLimitResult]. *)
Record RateLimitOptions : Type := {
  requests : Z;
  window : string;
}.

Record RateLimitResult : Type := {
  allowed : bool;
  remaining : Z;
  resetTime : Z;
  totalHits : Z;
}.

(** The ioredis client object, known to the service only as a handle. *)
Inductive RedisClient : Type :=
  | Redis (url : string).

(** The methods of [LoggerService] the service calls. *)
Inductive LogLevel : Type := LogWarn | LogError | LogDebug.

(** The fields of [RateLimitService].  [logger] is the list of lines handed
    to the logger so far, oldest first. *)
Record RateLimitService : Type := {
  redis : option RedisClient;
  fallbackStorage : gmap string (list Z);
  logger : list (LogLevel * string);
}.

(** What awaiting a promise of the client gives. *)
Inductive Reply (A : Type) : Type :=
  | Resolved (a : A)
  | Rejected (e : JsError).
Arguments Resolved {A} a.
Arguments Rejected {A} e.

(** The value [pipeline.exec()] resolves to: [null], or one
    [[error, result]] pair per queued command. *)
Definition ExecResult : Type := option (list (option JsError * option Z)).

(** *** Methods as state-and-completion functions *)

Definition Method (A : Type) : Type :=
  RateLimitService -> Completion A * RateLimitService.

#[export] Instance Method_ret : MRet Method :=
  fun A a s => (Normal a, s).

#[export] Instance Method_bind : MBind Method :=
  fun A B f m s =>
    match m s with
    | (Normal a, s') => f a s'
    | (Throw e, s') => (Throw e, s')
    end.

Definition throw {A : Type} (e : JsError) : Method A :=
  fun s => (Throw e, s).

Definition try_catch {A : Type} (body : Method A) (handler : JsError -> Method A)
  : Method A :=
  fun s =>
    match body s with
    | (Normal a, s') => (Normal a, s')
    | (Throw e, s') => handler e s'
    end.

Definition complete {A : Type} (c : Completion A) : Method A :=
  fun s => (c, s).

Definition await {A : Type} (r : Reply A) : Method A :=
  match r with
  | Resolved a => mret a
  | Rejected e => throw e
  end.

Definition this_redis : Method (option RedisClient) :=
  fun s => (Normal (redis s), s).

Definition set_redis (client : RedisClient) : Method unit :=
  fun s => (Normal tt,
            {| redis := Some client;
               fallbackStorage := fallbackStorage s;
               logger := logger s |}).

Definition update_storage (f : gmap string (list Z) -> gmap string (list Z))
  : Method unit :=
  fun s => (Normal tt,
            {| redis := redis s;
               fallbackStorage := f (fallbackStorage s);
               logger := logger s |}).

(** [Map.prototype.get], [set], [delete], [clear] and [size]. *)
Definition storage_get (key : string) : Method (option (list Z)) :=
  fun s => (Normal (fallbackStorage s !! key), s).
Definition storage_set (key : string) (timestamps : list Z) : Method unit :=
  update_storage (insert key timestamps).
Definition storage_delete (key : string) : Method unit :=
  update_storage (delete key).
Definition storage_clear : Method unit :=
  update_storage (fun _ => ∅).
Definition storage_size : Method nat :=
  fun s => (Normal (size (fallbackStorage s)), s).

(** [this.logger.<level>?.(message, ...)] *)
Definition log (level : LogLevel) (message : string) : Method unit :=
  fun s => (Normal tt,
            {| redis := redis s;
               fallbackStorage := fallbackStorage s;
               logger := logger s ++ [(level, message)] |}).

Definition when (b : bool) (m : Method unit) : Method unit :=
  if b then m else mret tt.

(** [new RateLimitService(...)] before [initializeRedis] has run. *)
Definition new_service : RateLimitService :=
  {| redis := None; fallbackStorage := ∅; logger := [] |}.

(** [String.prototype.includes] *)
Definition includes (text pattern : string) : bool :=
  match String.index 0 pattern text with Some _ => true | None => false end.

(** [error instanceof Error && (error.message.includes('Cannot find module')
    || error.message.includes('ERR_MODULE_NOT_FOUND'))] *)
Definition module_not_found (error : JsError) : bool :=
  match error with
  | ClientError message =>
      includes message "Cannot find module"
      || includes message "ERR_MODULE_NOT_FOUND"
  | _ => false
  end.

(** [private async initializeRedis(): Promise<void>].  [redisUrl] is what
    the configuration holds under [REDIS_URL], [ioredis] the outcome of the
    dynamic import and of the client's constructor, and [connect] that of
    [this.redis.connect()].  The client is stored before the connection is
    awaited, and stays stored when the connection fails.  The handlers
    registered with [this.redis.on] only write to the logger and are left
    out. *)
Definition initializeRedis (redisUrl : option string) (ioredis : Reply unit)
    (connect : Reply unit) : Method unit :=
  try_catch
    (match redisUrl with
     | None =>
         log LogWarn
           "Redis URL not configured. Rate limiting will operate in fallback mode (memory-based)."
     | Some url =>
         await ioredis;;
         set_redis (Redis url);;
         await connect
     end)
    (fun error =>
       if module_not_found error
       then
         log LogWarn
           "ioredis not found. Rate limiting will operate in fallback mode (memory-based). Install ioredis for distributed rate limiting."
       else
         log LogError "Failed to initialize Redis connection:";;
         log LogWarn "Rate limiting will operate in fallback mode (memory-based)").

(** The predicate of both [filter] calls: [timestamp > windowStart]. *)
Definition in_window (windowStart : Z) (timestamps : list Z) : list Z :=
  filter (fun timestamp => windowStart < timestamp) timestamps.

(** [private cleanupFallbackStorage(windowStart: number): void].  The loop
    visits every entry once (deleting or overwriting the entry being
    visited does not disturb a [Map] iteration) and treats each on its own,
    which is [omap] on the finite map. *)
Definition cleanup_entry (windowStart : Z) (timestamps : list Z)
  : option (list Z) :=
  let validTimestamps := in_window windowStart timestamps in
  if decide (length validTimestamps = 0%nat) then None else Some validTimestamps.

Definition cleanupFallbackStorage (windowStart : Z) : Method unit :=
  update_storage (omap (cleanup_entry windowStart)).

(** [private fallbackRateLimit(key, options, now): RateLimitResult] *)
Definition fallbackRateLimit (key : string) (options : RateLimitOptions)
    (now : Z) : Method RateLimitResult :=
  windowMs ← complete (parseWindow (window options));
  let windowStart := now - windowMs in
  found ← storage_get key;
  timestamps ← match found with
                | Some timestamps => mret timestamps
                | None => storage_set key [];; mret []
                end;
  let validTimestamps := in_window windowStart timestamps ++ [now] in
  storage_set key validTimestamps;;
  let hits := Z.of_nat (length validTimestamps) in
  let allowed := hits <=? requests options in
  let remaining := Z.max 0 (requests options - hits) in
  let resetTime := now + windowMs in
  when (hits =? 1)
    (log LogWarn
       "Using fallback rate limiting - not suitable for distributed systems");;
  entries ← storage_size;
  when (1000 <? Z.of_nat entries) (cleanupFallbackStorage windowStart);;
  mret {| allowed := allowed;
          remaining := remaining;
          resetTime := resetTime;
          totalHits := hits |}.

(** [(totalHits as number) || 0] *)
Definition or_zero (value : option Z) : Z :=
  match value with
  | Some n => if decide (n = 0) then 0 else n
  | None => 0
  end.

(** [private async redisRateLimit(key, options, now, windowStart, windowMs)].
    The pipeline queues [zremrangebyscore key 0 windowStart],
    [zadd key now member], [zcard key] and [expire key ceil(windowMs/1000)];
    [exec] is what awaiting [pipeline.exec()] gives.  The third pair of the
    reply is destructured, which throws when the reply is too short. *)
Definition redisRateLimit (key : string) (options : RateLimitOptions)
    (now windowStart windowMs : Z) (exec : Reply ExecResult)
  : Method RateLimitResult :=
  results ← await exec;
  match results with
  | None => throw PipelineExecFailed
  | Some results =>
      match results !! 2%nat with
      | None => throw TypeError
      | Some (Some countErr, _) => throw countErr
      | Some (None, totalHits) =>
          let hits := or_zero totalHits in
          let allowed := hits <=? requests options in
          let remaining := Z.max 0 (requests options - hits) in
          let resetTime := now + windowMs in
          mret {| allowed := allowed;
                  remaining := remaining;
                  resetTime := resetTime;
                  totalHits := hits |}
      end
  end.

(** [async checkRateLimit(key, options): Promise<RateLimitResult>], with
    [now] for [Date.now()]. *)
Definition checkRateLimit (key : string) (options : RateLimitOptions)
    (now : Z) (exec : Reply ExecResult) : Method RateLimitResult :=
  windowMs ← complete (parseWindow (window options));
  let windowStart := now - windowMs in
  client ← this_redis;
  match client with
  | None => fallbackRateLimit key options now
  | Some _ =>
      try_catch
        (redisRateLimit key options now windowStart windowMs exec)
        (fun error =>
           log LogError "Redis rate limit error:";;
           fallbackRateLimit key options now)
  end.

(** [async decrementRateLimit(key): Promise<void>].  [zrevrange] is what
    awaiting [this.redis.zrevrange(key, 0, 0, 'WITHSCORES')] gives and
    [exec] what awaiting the [zrem] pipeline gives. *)
Definition decrementRateLimit (key : string)
    (zrevrange : Reply (option (list string))) (exec : Reply ExecResult)
  : Method unit :=
  client ← this_redis;
  match client with
  | None =>
      found ← storage_get key;
      match found with
      | Some ((_ :: _) as timestamps) =>
          let popped := removelast timestamps in
          if decide (length popped = 0%nat)
          then storage_delete key
          else storage_set key popped
      | _ => mret tt
      end
  | Some _ =>
      try_catch
        (entries ← await zrevrange;
         match entries with
         | Some (_ :: _ :: _) =>
             await exec;;
             log LogDebug "Rate limit decremented"
         | _ => log LogDebug "No entries to decrement for rate limit key"
         end)
        (fun error => log LogError "Failed to decrement rate limit")
  end.

(** [async healthCheck(): Promise<boolean>], with [ping] for what awaiting
    [this.redis.ping()] gives. *)
Definition healthCheck (ping : Reply unit) : Method bool :=
  client ← this_redis;
  match client with
  | None =>
      log LogDebug "Health check: Redis not initialized";;
      mret false
  | Some _ =>
      try_catch
        (await ping;;
         log LogDebug "Health check: Redis OK";;
         mret true)
        (fun error =>
           log LogDebug "Health check: Redis unhealthy";;
           mret false)
  end.

(** [onModuleDestroy(): void].  Disconnecting acts on the client alone. *)
Definition onModuleDestroy : Method unit :=
  storage_clear.

End Service.

(** ** Observations, runs and reachable states *)

Module Engine.

Import Window Service.

(** The hits recorded for a key: the stored array, or nothing. *)
Definition history (s : RateLimitService) (key : string) : list Z :=
  default [] (fallbackStorage s !! key).

(** The replies on which [redisRateLimit] throws: a rejected [exec], a
    [null] reply, a reply with no third pair, or a third pair that carries
    an error. *)
Definition exec_fails (exec : Reply ExecResult) : bool :=
  match exec with
  | Rejected _ => true
  | Resolved None => true
  | Resolved (Some results) =>
      match results !! 2%nat with
      | None => true
      | Some (Some _, _) => true
      | Some (None, _) => false
      end
  end.

(** The count a reply that does not fail carries, and the record
    [redisRateLimit] builds from it. *)
Definition store_hits (exec : Reply ExecResult) : Z :=
  match exec with
  | Resolved (Some results) =>
      match results !! 2%nat with
      | Some (None, totalHits) => or_zero totalHits
      | _ => 0
      end
  | _ => 0
  end.

Definition store_result (options : RateLimitOptions) (windowMs now : Z)
    (exec : Reply ExecResult) : RateLimitResult :=
  let hits := store_hits exec in
  {| allowed := hits <=? requests options;
     remaining := Z.max 0 (requests options - hits);
     resetTime := now + windowMs;
     totalHits := hits |}.

(** A check is served by the local-memory path when no client is attached
    or when the shared-store transaction fails. *)
Definition local_path (s : RateLimitService) (exec : Reply ExecResult) : Prop :=
  redis s = None \/ exec_fails exec = true.

(** What the local-memory path returns and stores, as functions of the hits
    recorded for the key and of the whole map. *)
Definition local_result (options : RateLimitOptions) (windowMs now : Z)
    (recorded : list Z) : RateLimitResult :=
  let hits := Z.of_nat (length (in_window (now - windowMs) recorded ++ [now])) in
  {| allowed := hits <=? requests options;
     remaining := Z.max 0 (requests options - hits);
     resetTime := now + windowMs;
     totalHits := hits |}.

Definition local_storage (key : string) (windowMs now : Z)
    (storage : gmap string (list Z)) : gmap string (list Z) :=
  let stored :=
    <[key := in_window (now - windowMs) (default [] (storage !! key)) ++ [now]]>
      storage in
  if 1000 <? Z.of_nat (size stored)
  then omap (cleanup_entry (now - windowMs)) stored
  else stored.

(** A caller that issues one check after the other on the same key and
    policy; each call comes with its clock reading and its store reply. *)
Fixpoint checkRateLimit_each (key : string) (options : RateLimitOptions)
    (calls : list (Z * Reply ExecResult)) : Method (list RateLimitResult) :=
  match calls with
  | [] => mret []
  | (now, exec) :: rest =>
      result ← checkRateLimit key options now exec;
      results ← checkRateLimit_each key options rest;
      mret (result :: results)
  end.

(** The record a check returns when it is the [n]-th hit in the window. *)
Definition nth_hit (options : RateLimitOptions) (windowMs : Z) (n : nat)
    (now : Z) : RateLimitResult :=
  {| allowed := Z.of_nat n <=? requests options;
     remaining := Z.max 0 (requests options - Z.of_nat n);
     resetTime := now + windowMs;
     totalHits := Z.of_nat n |}.

(** A clock reading no earlier than [first] and less than one window after
    it. *)
Definition inside_window (first windowMs t : Z) : Prop :=
  first <= t < first + windowMs.

(** One completed operation of the service, whatever its completion. *)
Inductive step : RateLimitService -> RateLimitService -> Prop :=
  | step_initializeRedis redisUrl ioredis connect s :
      step s (initializeRedis redisUrl ioredis connect s).2
  | step_checkRateLimit key options now exec s :
      step s (checkRateLimit key options now exec s).2
  | step_decrementRateLimit key zrevrange exec s :
      step s (decrementRateLimit key zrevrange exec s).2
  | step_healthCheck ping s :
      step s (healthCheck ping s).2
  | step_onModuleDestroy s :
      step s (onModuleDestroy s).2.

Definition reachable (s : RateLimitService) : Prop :=
  rtc step new_service s.

(** No key is bound to an empty array. *)
Definition no_empty_history (s : RateLimitService) : Prop :=
  forall key timestamps,
    fallbackStorage s !! key = Some timestamps -> timestamps <> [].

(** A digit other than ["0"] occurs in the string. *)
Fixpoint has_nonzero_digit (s : string) : bool :=
  match s with
  | String c rest =>
      match digit_of c with
      | Some d => (0 <? d) || has_nonzero_digit rest
      | None => has_nonzero_digit rest
      end
  | EmptyString => false
  end.

(** Sample states and policies for the instances below. *)
Definition per_minute (limit : Z) : RateLimitOptions :=
  {| requests := limit; window := "1m" |}.

Definition with_storage (storage : gmap string (list Z)) : RateLimitService :=
  {| redis := None; fallbackStorage := storage; logger := [] |}.

(** Two hits under "u1", the older of which has left the window of one
    minute by the time 70000. *)
Definition two_hits : gmap string (list Z) := {[ "u1" := [1000; 50000] ]}.

(** Four checks inside one minute, none of which reaches a store. *)
Definition four_calls : list (Z * Reply ExecResult) :=
  [(1000, Resolved None); (1001, Resolved None);
   (20000, Resolved None); (60999, Resolved None)].

Definition attached (storage : gmap string (list Z)) : RateLimitService :=
  {| redis := Some (Redis "redis://localhost:6379");
     fallbackStorage := storage;
     logger := [] |}.


(** A map of 1001 keys, each with one hit at the time 1000. *)
Definition numbered_key (n : nat) : string :=
  String (ascii_of_nat (48 + n / 32))
    (String (ascii_of_nat (48 + n mod 32)) EmptyString).

Definition crowded : gmap string (list Z) :=
  list_to_map ((fun n => (numbered_key n, [1000])) <$> seq 0 1001).

End Engine.

(** ** The callers of the service: decorator, guard and interceptor *)

Module Http.

Import Window Service.

(** The parts of the Express request the guard and the interceptor read.
    [ip] and [remoteAddress] may be absent; [route] is [request.route] and
    [routePath] its optional [path]; [path] is [None] when [request.path] is
    not a string. *)
Record Socket : Type := {
  remoteAddress : option string;
}.

Record Route : Type := {
  routePath : option string;
}.

Record Request : Type := {
  ip : option string;
  socket : option Socket;
  route : option Route;
  path : option string;
}.

(** A value handed to [response.setHeader]. *)
Inductive HeaderValue : Type :=
  | HeaderNumber (n : Z)
  | HeaderString (text : string).

(** [RateLimitOptions] as the decorator stores it in the metadata: the two
    fields the service reads ([policy]) and the three only its callers
    read. *)
Record RouteOptions : Type := {
  policy : RateLimitOptions;
  keyGenerator : option (Request -> string);
  skipSuccessfulRequests : option bool;
  skipFailedRequests : option bool;
}.

(** Truthiness of an optional string, of an optional flag and of an optional
    number. *)
Definition truthy_string (value : option string) : bool :=
  match value with
  | Some text => negb (String.eqb text "")
  | None => false
  end.

Definition truthy_flag (value : option bool) : bool :=
  match value with
  | Some flag => flag
  | None => false
  end.

Definition truthy_number (value : option Z) : bool :=
  match value with
  | Some n => negb (n =? 0)
  | None => false
  end.

(** [Math.ceil(x / 1000)] on an integer [x]. *)
Definition ceil_seconds (x : Z) : Z := - ((- x) / 1000).

(** [getRequestPath(request)], the same in the guard and in the
    interceptor. *)
Definition getRequestPath (request : Request) : string :=
  let routePath := route request ≫= routePath in
  if truthy_string routePath
  then default "" routePath
  else
    match path request with
    | Some pathValue => pathValue
    | None => "/"
    end.

(** The template literal [`rate_limit:${ip}:${path}`]. *)
Definition default_key (ip path : string) : string :=
  "rate_limit:" +:+ ip +:+ ":" +:+ path.

End Http.

Module Decorator.

Import Window Service Http.

(** The argument of [RateLimit(...)]: any field may be left out. *)
Record DecoratorArguments : Type := {
  arg_requests : option Z;
  arg_window : option string;
  arg_keyGenerator : option (Request -> string);
  arg_skipSuccessfulRequests : option bool;
  arg_skipFailedRequests : option bool;
}.

(** [defaultOptions] of [RateLimit]: the spread of the argument with
    [requests ?? 100], [window ?? '1m'] and the two flags [?? false]. *)
Definition RateLimit (options : DecoratorArguments) : RouteOptions :=
  {| policy :=
       {| requests := default 100 (arg_requests options);
          window := default "1m" (arg_window options) |};
     keyGenerator := arg_keyGenerator options;
     skipSuccessfulRequests :=
       Some (default false (arg_skipSuccessfulRequests options));
     skipFailedRequests :=
       Some (default false (arg_skipFailedRequests options)) |}.

End Decorator.

Module Guard.

Import Window Service Http.

(** What the body of [canActivate] can throw: the [HttpException] it builds
    itself (status and [retryAfter]) or whatever [checkRateLimit] rejected
    with. *)
Inductive Thrown : Type :=
  | HttpException (statusCode retryAfter : Z)
  | Rejection (error : JsError).

Inductive Outcome : Type :=
  | Returns (value : bool)
  | Throws (error : Thrown).

(** The guard's injected service and logger, and the headers of the
    response it writes to. *)
Record World : Type := {
  rateLimitService : RateLimitService;
  headers : gmap string HeaderValue;
  guardLogger : list (LogLevel * string);
}.

(** [private generateKey(request, options)] of the guard:
    [request?.ip || request.socket?.remoteAddress || 'unknown']. *)
Definition generateKey (request : Request) (options : RouteOptions) : string :=
  match keyGenerator options with
  | Some generate => generate request
  | None =>
      let address := socket request ≫= remoteAddress in
      let ip :=
        if truthy_string (ip request) then default "" (ip request)
        else if truthy_string address then default "" address
        else "unknown" in
      default_key ip (getRequestPath request)
  end.

(** [private setRateLimitHeaders(response, result, options)], with [now] for
    the [Date.now()] of the [Retry-After] header. *)
Definition setRateLimitHeaders (response : gmap string HeaderValue)
    (result : RateLimitResult) (options : RateLimitOptions) (now : Z)
  : gmap string HeaderValue :=
  let response :=
    <["X-RateLimit-Limit" := HeaderNumber (requests options)]> response in
  let response :=
    <["X-RateLimit-Remaining" := HeaderNumber (Z.max 0 (remaining result))]>
      response in
  let response :=
    <["X-RateLimit-Reset" := HeaderNumber (ceil_seconds (resetTime result))]>
      response in
  let response :=
    <["X-RateLimit-Window" := HeaderString (window options)]> response in
  if remaining result <=? 0
  then <["Retry-After" := HeaderNumber (ceil_seconds (resetTime result - now))]>
         response
  else response.

Definition guard_log (level : LogLevel) (message : string) (w : World) : World :=
  {| rateLimitService := rateLimitService w;
     headers := headers w;
     guardLogger := guardLogger w ++ [(level, message)] |}.

(** The [try] block of [canActivate].  [now] is the clock of the check,
    [nowHeaders] that of [setRateLimitHeaders] and [nowThrow] that of the
    exception's [retryAfter]. *)
Definition canActivate_try (key : string) (options : RouteOptions)
    (now nowHeaders nowThrow : Z) (exec : Reply ExecResult) (w : World)
  : Outcome * World :=
  match checkRateLimit key (policy options) now exec (rateLimitService w) with
  | (Throw error, service) =>
      (Throws (Rejection error),
       {| rateLimitService := service;
          headers := headers w;
          guardLogger := guardLogger w |})
  | (Normal result, service) =>
      let w :=
        {| rateLimitService := service;
           headers :=
             setRateLimitHeaders (headers w) result (policy options) nowHeaders;
           guardLogger := guardLogger w |} in
      if allowed result
      then (Returns true, guard_log LogDebug "Rate limit check passed" w)
      else
        (Throws (HttpException 429 (ceil_seconds (resetTime result - nowThrow))),
         guard_log LogWarn "Rate limit exceeded" w)
  end.

(** [async canActivate(context): Promise<boolean>].  [metadata] is what the
    reflector finds for the handler, [request] the request of the context;
    the [catch] block rethrows an [HttpException] and turns anything else
    into [true]. *)
Definition canActivate (metadata : option RouteOptions) (request : Request)
    (now nowHeaders nowThrow : Z) (exec : Reply ExecResult) (w : World)
  : Outcome * World :=
  match metadata with
  | None => (Returns true, w)
  | Some rateLimitOptions =>
      let key := generateKey request rateLimitOptions in
      match canActivate_try key rateLimitOptions now nowHeaders nowThrow exec w with
      | (Throws (Rejection error), w) =>
          (Returns true, guard_log LogError "Rate limit check failed" w)
      | thrown_or_returned => thrown_or_returned
      end
  end.

End Guard.

Module Interceptor.

Import Window Service Http.

(** The interceptor's injected service and logger. *)
Record World : Type := {
  rateLimitService : RateLimitService;
  interceptorLogger : list (LogLevel * string);
}.

(** What the handler's observable does: it emits, and the status is read
    off the response, or it fails with an error that may carry a [status]
    or a [response.statusCode]. *)
Inductive HandlerEvent : Type :=
  | Emitted (responseStatusCode : Z)
  | Failed (status : option Z) (responseStatusCode : option Z).

(** [error?.status || error?.response?.statusCode || 500] *)
Definition error_status (status responseStatusCode : option Z) : Z :=
  if truthy_number status then default 0 status
  else if truthy_number responseStatusCode then default 0 responseStatusCode
  else 500.

Definition event_status (event : HandlerEvent) : Z :=
  match event with
  | Emitted statusCode => statusCode
  | Failed status responseStatusCode => error_status status responseStatusCode
  end.

(** [private generateKey(request, options)] of the interceptor:
    [request.ip || request.socket.remoteAddress || 'unknown'], where reading
    [remoteAddress] off an absent socket throws. *)
Definition generateKey (request : Request) (options : RouteOptions)
  : Completion string :=
  match keyGenerator options with
  | Some generate => Normal (generate request)
  | None =>
      if truthy_string (ip request)
      then Normal (default_key (default "" (ip request)) (getRequestPath request))
      else
        match socket request with
        | None => Throw TypeError
        | Some peer =>
            let ip :=
              if truthy_string (remoteAddress peer)
              then default "" (remoteAddress peer)
              else "unknown" in
            Normal (default_key ip (getRequestPath request))
        end
  end.

Definition interceptor_log (level : LogLevel) (message : string) (w : World)
  : World :=
  {| rateLimitService := rateLimitService w;
     interceptorLogger := interceptorLogger w ++ [(level, message)] |}.

(** The two conditions under which [handleResponse] sets [shouldSkip]. *)
Definition skips_successful (statusCode : Z) (options : RouteOptions) : bool :=
  truthy_flag (skipSuccessfulRequests options)
  && (200 <=? statusCode) && (statusCode <? 300).

Definition skips_failed (statusCode : Z) (options : RouteOptions) : bool :=
  truthy_flag (skipFailedRequests options) && (400 <=? statusCode).

(** [private async handleResponse(key, statusCode, options)]; [zrevrange]
    and [exec] are the store replies of the decrement. *)
Definition handleResponse (key : string) (statusCode : Z)
    (options : RouteOptions) (zrevrange : Reply (option (list string)))
    (exec : Reply ExecResult) (w : World) : World :=
  let w :=
    if skips_successful statusCode options
    then interceptor_log LogDebug
           "Skipping rate limit increment for successful request" w
    else w in
  let w :=
    if skips_failed statusCode options
    then interceptor_log LogDebug
           "Skipping rate limit increment for failed request" w
    else w in
  if skips_successful statusCode options || skips_failed statusCode options
  then
    match decrementRateLimit key zrevrange exec (rateLimitService w) with
    | (Normal _, service) =>
        {| rateLimitService := service;
           interceptorLogger := interceptorLogger w |}
    | (Throw error, service) =>
        interceptor_log LogError "Failed to handle rate limit response"
          {| rateLimitService := service;
             interceptorLogger := interceptorLogger w |}
    end
  else w.

(** [intercept(context, next)] as far as one notification of the handler
    goes: the key is generated before the handler runs, [handleResponse] at
    the notification.  [intercept_stream] below runs all of them. *)
Definition intercept (metadata : option RouteOptions) (request : Request)
    (event : HandlerEvent) (zrevrange : Reply (option (list string)))
    (exec : Reply ExecResult) (w : World) : Completion unit * World :=
  match metadata with
  | None => (Normal tt, w)
  | Some rateLimitOptions =>
      match generateKey request rateLimitOptions with
      | Throw error => (Throw error, w)
      | Normal key =>
          (Normal tt,
           handleResponse key (event_status event) rateLimitOptions
             zrevrange exec w)
      end
  end.

(** What the handler's observable sends from subscription to its end: any
    number of emissions and then, possibly, one error, after which nothing
    more arrives.  Each notification comes with the store replies of the
    decrement it may trigger; the [tap] runs [handleResponse] at every
    one. *)
Fixpoint handle_notifications (key : string) (options : RouteOptions)
    (notifications :
       list (HandlerEvent * (Reply (option (list string)) * Reply ExecResult)))
    (w : World) : World :=
  match notifications with
  | [] => w
  | (event, (zrevrange, exec)) :: rest =>
      let w :=
        handleResponse key (event_status event) options zrevrange exec w in
      match event with
      | Failed _ _ => w
      | Emitted _ => handle_notifications key options rest w
      end
  end.

(** [intercept(context, next)] with the whole run of the handler. *)
Definition intercept_stream (metadata : option RouteOptions) (request : Request)
    (notifications :
       list (HandlerEvent * (Reply (option (list string)) * Reply ExecResult)))
    (w : World) : Completion unit * World :=
  match metadata with
  | None => (Normal tt, w)
  | Some rateLimitOptions =>
      match generateKey request rateLimitOptions with
      | Throw error => (Throw error, w)
      | Normal key =>
          (Normal tt, handle_notifications key rateLimitOptions notifications w)
      end
  end.

(** The number of notifications of a run that reach [handleResponse] under
    one of the skip options. *)
Fixpoint taken_back (options : RouteOptions)
    (notifications :
       list (HandlerEvent * (Reply (option (list string)) * Reply ExecResult)))
  : nat :=
  match notifications with
  | [] => 0
  | (event, _) :: rest =>
      ((if skips_successful (event_status event) options
           || skips_failed (event_status event) options
        then 1 else 0)
       + match event with
         | Failed _ _ => 0
         | Emitted _ => taken_back options rest
         end)%nat
  end.

End Interceptor.

Module Scenario.

Import Window Service Engine Http.

(** A caller that decrements the same key once per pair of store replies. *)
Fixpoint decrementRateLimit_each (key : string)
    (replies : list (Reply (option (list string)) * Reply ExecResult))
  : Method unit :=
  match replies with
  | [] => mret tt
  | (zrevrange, exec) :: rest =>
      decrementRateLimit key zrevrange exec;;
      decrementRateLimit_each key rest
  end.

(** The character occurs in the string; the string starts with a slash. *)
Fixpoint occurs (c : ascii) (s : string) : bool :=
  match s with
  | String d rest => Ascii.eqb c d || occurs c rest
  | EmptyString => false
  end.

Definition absolute (path : string) : bool :=
  match path with
  | String d _ => Ascii.eqb d "/"
  | EmptyString => false
  end.

(** Sample requests and metadata for the instances below. *)
Definition local_request : Request :=
  {| ip := Some "10.0.0.7";
     socket := Some {| remoteAddress := Some "10.0.0.7" |};
     route := Some {| routePath := Some "/login" |};
     path := Some "/login" |}.

(** The same client and path, once resolved through the route and once
    through [request.path]. *)
Definition routed_request : Request :=
  {| ip := Some "::1"; socket := None;
     route := Some {| routePath := Some "/users/:id" |}; path := None |}.

Definition unrouted_request : Request :=
  {| ip := Some "::1"; socket := None; route := None;
     path := Some "/users/:id" |}.

Definition bare_request : Request :=
  {| ip := None; socket := None; route := None; path := None |}.

Definition route_options (limit : Z) (window : string) (skip : bool)
  : RouteOptions :=
  {| policy := {| requests := limit; window := window |};
     keyGenerator := None;
     skipSuccessfulRequests := Some skip;
     skipFailedRequests := Some false |}.

(** The default key of [local_request], with two hits recorded under it. *)
Definition login_key : string := "rate_limit:10.0.0.7:/login".

Definition login_hits : gmap string (list Z) := {[ login_key := [1000; 2000] ]}.

Definition guard_world (storage : gmap string (list Z)) : Guard.World :=
  {| Guard.rateLimitService := with_storage storage;
     Guard.headers := ∅;
     Guard.guardLogger := [] |}.

Definition interceptor_world (service : RateLimitService) : Interceptor.World :=
  {| Interceptor.rateLimitService := service;
     Interceptor.interceptorLogger := [] |}.

End Scenario.

Import Window Service Engine Http Scenario.

(** ** The window parser *)

Section WindowParser.

Lemma digit_of_range (c : ascii) (d : Z) :
  digit_of c = Some d -> 0 <= d <= 9.
Proof.
  unfold digit_of. destruct (_ && _) eqn:Hcode; [|done].
  intros [= <-]. apply andb_prop in Hcode as [?%Z.leb_le ?%Z.leb_le]. lia.
Qed.

Lemma unit_char_not_digit (c : ascii) :
  is_unit_char c = true -> is_digit c = false.
Proof.
  destruct c as [[] [] [] [] [] [] [] []]; cbv; congruence.
Qed.

Lemma units_multiplier (c : ascii) (m : Z) :
  is_unit_char c = true -> (units c = Some m <-> multiplier_of c m).
Proof.
  intros Hc. split.
  - destruct c as [[] [] [] [] [] [] [] []]; simpl in *; try discriminate;
      intros [= <-]; constructor.
  - destruct 1; reflexivity.
Qed.


(** The greedy scan splits the input, and what it took is digits. *)
Lemma take_digits_split (s amount tail : string) :
  take_digits s = (amount, tail) ->
  s = amount +:+ tail /\ all_digits amount = true.
Proof.
  revert amount tail. induction s as [|c s IH]; simpl; intros amount tail.
  - intros [= <- <-]. done.
  - destruct (is_digit c) eqn:Hc.
    + destruct (take_digits s) as [a t]. intros [= <- <-].
      destruct (IH a t eq_refl) as [-> Ha]. simpl. by rewrite Hc, Ha.
    + intros [= <- <-]. done.
Qed.

(** It stops at the first character that is not a digit. *)
Lemma take_digits_stop (amount : string) (c : ascii) (tail : string) :
  all_digits amount = true -> is_digit c = false ->
  take_digits (amount +:+ String c tail) = (amount, String c tail).
Proof.
  intros Ha Hc. induction amount as [|d amount IH]; simpl in *.
  - by rewrite Hc.
  - apply andb_prop in Ha as [Hd Ha]. by rewrite Hd, IH.
Qed.

Lemma parseInt_from_decimal (amount : string) (acc : Z) :
  all_digits amount = true ->
  parseInt_from acc amount
  = acc * 10 ^ Z.of_nat (String.length amount) + decimal_value amount.
Proof.
  revert acc.
  induction amount as [|c amount IH];
    cbn [parseInt_from decimal_value String.length all_digits]; intros acc Ha.
  - change (10 ^ Z.of_nat 0) with 1. lia.
  - apply andb_prop in Ha as [Hc Ha]. unfold is_digit in Hc.
    destruct (digit_of c) as [d|]; [|discriminate]. cbn [default].
    rewrite IH by done.
    rewrite Nat2Z.inj_succ, Z.pow_succ_r by lia. unfold id. nia.
Qed.

Lemma parseInt_decimal (amount : string) :
  all_digits amount = true ->
  parseInt amount = to_double (decimal_value amount).
Proof.
  intros Ha. unfold parseInt. rewrite parseInt_from_decimal by done.
  f_equal; lia.
Qed.

(** Rounding leaves the integers below 2^53 alone, keeps the sign, and takes
    nothing at or above 2^53 below it. *)
Lemma to_double_exact (z : Z) : 0 <= z < 2 ^ 53 -> to_double z = z.
Proof.
  intros Hz. unfold to_double.
  assert (Z.log2 z <= 52) as Hlog.
  { destruct (decide (z = 0)) as [->|?]; [done|].
    assert (Z.log2 z < 53); [|lia]. apply Z.log2_lt_pow2; lia. }
  rewrite Z.max_l by lia. change (2 ^ 0) with 1.
  rewrite Z.div_1_r, Z.mod_1_r. simpl. lia.
Qed.

Lemma to_double_bounds (z : Z) :
  0 < z ->
  let unit := 2 ^ Z.max 0 (Z.log2 z - 52) in
  0 < unit /\ unit <= z /\ (z / unit) * unit <= to_double z.
Proof.
  intros Hz unit.
  assert (0 < unit) as Hunit by (apply Z.pow_pos_nonneg; lia).
  assert (unit <= z) as Hle.
  { pose proof (Z.log2_spec z Hz) as [Hlow _].
    pose proof (Z.log2_nonneg z).
    transitivity (2 ^ Z.log2 z); [|done].
    apply Z.pow_le_mono_r; lia. }
  split; [done|]. split; [done|].
  unfold to_double. fold unit. destruct (_ || _); nia.
Qed.

Lemma to_double_nonneg (z : Z) : 0 <= z -> 0 <= to_double z.
Proof.
  intros Hz. destruct (decide (z = 0)) as [->|?]; [done|].
  destruct (to_double_bounds z) as (Hunit & Hle & Hlow); [lia|].
  assert (0 <= z / 2 ^ Z.max 0 (Z.log2 z - 52)) by (apply Z.div_pos; lia).
  nia.
Qed.

Lemma to_double_positive (z : Z) : 0 <= z -> (0 < to_double z <-> 0 < z).
Proof.
  intros Hz. split.
  - destruct (decide (z = 0)) as [->|?]; [done|lia].
  - intros Hpos. destruct (to_double_bounds z Hpos) as (Hunit & Hle & Hlow).
    assert (1 <= z / 2 ^ Z.max 0 (Z.log2 z - 52)).
    { apply Z.div_le_lower_bound; lia. }
    nia.
Qed.

Lemma to_double_small (z : Z) : 0 <= z -> to_double z < 2 ^ 53 -> z < 2 ^ 53.
Proof.
  intros Hz Hsmall. destruct (decide (z < 2 ^ 53)) as [?|Hbig]; [done|].
  exfalso. assert (0 < z) as Hpos by lia.
  destruct (to_double_bounds z Hpos) as (Hunit & Hle & Hlow).
  pose proof (Z.log2_spec z Hpos) as [Hlog _].
  assert (53 <= Z.log2 z) as H53 by (apply Z.log2_le_pow2; lia).
  rewrite Z.max_r in * by lia.
  assert (2 ^ 52 <= z / 2 ^ (Z.log2 z - 52)) as Hq.
  { apply Z.div_le_lower_bound; [lia|].
    rewrite <- Z.pow_add_r by lia.
    by replace (Z.log2 z - 52 + 52) with (Z.log2 z) by lia. }
  assert (2 <= 2 ^ (Z.log2 z - 52)) as Hu.
  { change 2 with (2 ^ 1) at 1. apply Z.pow_le_mono_r; lia. }
  change (2 ^ 53) with (2 ^ 52 * 2) in Hsmall. nia.
Qed.

Lemma window_match_well_formed (window amount : string) (unit : ascii) :
  window_match window = Some (amount, unit) <-> well_formed window amount unit.
Proof.
  unfold window_match, well_formed. split.
  - destruct (take_digits window) as [a t] eqn:Ht.
    apply take_digits_split in Ht as [-> Ha].
    destruct a as [|c a]; [done|].
    destruct t as [|u [|? ?]]; try done.
    destruct (is_unit_char u) eqn:Hu; [|done].
    intros [= <- <-]. done.
  - intros (-> & Hne & Ha & Hu).
    rewrite take_digits_stop by auto using unit_char_not_digit.
    destruct amount; [done|]. by rewrite Hu.
Qed.

Lemma parseWindow_well_formed (window amount : string) (unit : ascii) (m : Z) :
  well_formed window amount unit -> multiplier_of unit m ->
  parseWindow window
  = Normal (to_double (to_double (decimal_value amount) * m)).
Proof.
  intros Hw Hm. unfold parseWindow.
  rewrite (proj2 (window_match_well_formed _ _ _) Hw).
  destruct Hw as (_ & _ & Ha & Hu).
  rewrite (proj2 (units_multiplier _ _ Hu) Hm).
  by rewrite parseInt_decimal.
Qed.

Lemma parseWindow_Normal (window : string) (w : Z) :
  parseWindow window = Normal w ->
  exists amount unit m,
    well_formed window amount unit /\ multiplier_of unit m
    /\ w = to_double (to_double (decimal_value amount) * m).
Proof.
  unfold parseWindow.
  destruct (window_match window) as [[amount unit]|] eqn:Hm; [|done].
  apply window_match_well_formed in Hm.
  destruct (units unit) as [m|] eqn:Hu; [|done].
  intros [= <-]. exists amount, unit, m. split; [done|].
  destruct Hm as (_ & _ & Ha & Hc).
  split; [by apply units_multiplier|]. by rewrite parseInt_decimal.
Qed.



Lemma decimal_value_nonneg (amount : string) : 0 <= decimal_value amount.
Proof.
  induction amount as [|c amount IH]; simpl; [lia|].
  assert (0 <= default 0 (digit_of c)).
  { destruct (digit_of c) as [d|] eqn:Hd; simpl; [|lia].
    apply digit_of_range in Hd. lia. }
  assert (0 < 10 ^ Z.of_nat (String.length amount)) by (apply Z.pow_pos_nonneg; lia).
  nia.
Qed.

Lemma decimal_value_positive (amount : string) :
  all_digits amount = true ->
  (0 < decimal_value amount <-> has_nonzero_digit amount = true).
Proof.
  induction amount as [|c amount IH]; simpl; intros Ha.
  - split; [lia|done].
  - apply andb_prop in Ha as [Hc Ha]. unfold is_digit in Hc.
    destruct (digit_of c) as [d|] eqn:Hd; [|done]. simpl.
    assert (0 <= d).
    { destruct c as [[] [] [] [] [] [] [] []]; simpl in Hd; try discriminate;
        injection Hd as <-; lia. }
    assert (0 < 10 ^ Z.of_nat (String.length amount)) by (apply Z.pow_pos_nonneg; lia).
    pose proof (decimal_value_nonneg amount).
    rewrite orb_true_iff, Z.ltb_lt, <- (IH Ha). split.
    + intros ?. destruct (decide (0 < d)); [by left|right]. nia.
    + intros [?|?]; nia.
Qed.

End WindowParser.

Section WindowClaims.

Lemma has_nonzero_digit_amount (amount : string) (unit : ascii) :
  is_unit_char unit = true ->
  has_nonzero_digit (amount +:+ String unit EmptyString)
  = has_nonzero_digit amount.
Proof.
  intros Hu. apply unit_char_not_digit in Hu. unfold is_digit in Hu.
  induction amount as [|c amount IH]; simpl.
  - by destruct (digit_of unit).
  - by rewrite IH.
Qed.





(** C4, as the specification has it, fails: "0s" matches the pattern and is
    parsed to zero milliseconds, which is not strictly positive. *)
Lemma C4_zero_seconds_parses :
  parseWindow "0s" = Normal 0
  /\ ~ (forall window ms, parseWindow window = Normal ms -> 0 < ms).
Proof.
  split; [reflexivity|].
  intros H. specialize (H "0s" 0 eq_refl). lia.
Qed.

Lemma parseWindow_sign (window : string) (ms : Z) :
  parseWindow window = Normal ms ->
  0 <= ms /\ (0 < ms <-> has_nonzero_digit window = true).
Proof.
  intros (amount & unit & m & Hw & Hm & ->)%parseWindow_Normal.
  destruct Hw as (-> & _ & Ha & Hu).
  rewrite has_nonzero_digit_amount by done.
  rewrite <- decimal_value_positive by done.
  pose proof (decimal_value_nonneg amount) as Hd.
  assert (0 < m) by (destruct Hm; lia).
  pose proof (to_double_nonneg _ Hd) as Hr.
  pose proof (to_double_positive _ Hd) as Hp.
  assert (0 <= to_double (decimal_value amount) * m) as Hprod by nia.
  split; [by apply to_double_nonneg|].
  rewrite (to_double_positive _ Hprod). split; intros ?; nia.
Qed.

(** C4, amended.  Whenever [parseWindow] succeeds the number of milliseconds
    it returns is not negative, and it is strictly positive exactly when
    the string holds a digit other than 0; "0s" is accepted and gives 0. *)
Theorem C4_parseWindow_sign (window : string) (ms : Z) :
  parseWindow window = Normal ms ->
  0 <= ms /\ (0 < ms <-> has_nonzero_digit window = true).
Proof. apply parseWindow_sign. Qed.

(** The amended C4 at the window "0s". *)
Lemma C4_parseWindow_sign_witness :
  parseWindow "0s" = Normal 0
  /\ 0 <= 0 /\ (0 < 0 <-> has_nonzero_digit "0s" = true).
Proof.
  split; [reflexivity|].
  exact (C4_parseWindow_sign "0s" 0 eq_refl).
Defined.

End WindowClaims.

(** ** The local-memory path *)

Section LocalPath.

Implicit Types (s : RateLimitService) (key : string)
  (options : RateLimitOptions) (now W : Z) (exec : Reply ExecResult).

(** The method and its functional reading agree. *)
Lemma fallbackRateLimit_run key options now s W :
  parseWindow (window options) = Normal W ->
  exists s',
    fallbackRateLimit key options now s
    = (Normal (local_result options W now (history s key)), s')
    /\ redis s' = redis s
    /\ fallbackStorage s' = local_storage key W now (fallbackStorage s).
Proof.
  intros HW.
  unfold fallbackRateLimit, local_result, local_storage, history.
  unfold mbind, Method_bind, complete, storage_get, storage_size, when.
  rewrite HW.
  destruct (fallbackStorage s !! key) as [timestamps|] eqn:Hkey; simpl.
  - destruct (_ =? 1); simpl; destruct (1000 <? _); simpl;
      eexists; (split; [reflexivity|done]).
  - rewrite !insert_insert_eq.
    destruct (1000 <? _); simpl; eexists; (split; [reflexivity|done]).
Qed.

End LocalPath.

Section Filtering.

Implicit Types (start : Z) (timestamps : list Z).

Lemma elem_of_in_window start timestamps (t : Z) :
  t ∈ in_window start timestamps <-> t ∈ timestamps /\ start < t.
Proof. unfold in_window. rewrite list_elem_of_filter. tauto. Qed.

Lemma in_window_Forall start timestamps :
  Forall (fun t => start < t) (in_window start timestamps).
Proof.
  apply Forall_forall. intros t Ht. by apply elem_of_in_window in Ht as [_ ?].
Qed.

Lemma in_window_all start timestamps :
  Forall (fun t => start < t) timestamps ->
  in_window start timestamps = timestamps.
Proof.
  unfold in_window. induction 1 as [|t l Ht _ IH]; [done|].
  by rewrite filter_cons_True, IH.
Qed.

Lemma in_window_idemp start timestamps :
  in_window start (in_window start timestamps) = in_window start timestamps.
Proof. apply in_window_all, in_window_Forall. Qed.

Lemma in_window_snoc start timestamps (now : Z) :
  in_window start (timestamps ++ [now])
  = in_window start timestamps ++ (if decide (start < now) then [now] else []).
Proof.
  unfold in_window. rewrite filter_app, filter_cons, filter_nil.
  by case_decide.
Qed.

Lemma in_window_length start timestamps :
  (length (in_window start timestamps) <= length timestamps)%nat.
Proof. apply length_filter. Qed.

Lemma cleanup_entry_Some start timestamps valid :
  cleanup_entry start timestamps = Some valid ->
  valid = in_window start timestamps /\ valid <> [].
Proof.
  unfold cleanup_entry. case_decide as Hlen; [done|].
  intros [= <-]. split; [done|]. intros Heq. by rewrite Heq in Hlen.
Qed.

Lemma cleanup_entry_default start timestamps :
  default [] (cleanup_entry start timestamps) = in_window start timestamps.
Proof.
  unfold cleanup_entry. case_decide as Hlen; [|done].
  simpl. symmetry. by apply nil_length_inv.
Qed.

(** What is stored under the key once the local path has run: the hits kept
    and the call's own; the sweep drops the latter again when the window is
    empty. *)
Lemma local_storage_key key (W now : Z) (storage : gmap string (list Z)) :
  let kept := in_window (now - W) (default [] (storage !! key)) in
  default [] (local_storage key W now storage !! key) = kept ++ [now]
  \/ (W <= 0 /\ default [] (local_storage key W now storage !! key) = kept).
Proof.
  intros kept. unfold local_storage. fold kept.
  destruct (1000 <? _).
  - rewrite lookup_omap, lookup_insert_eq. simpl.
    rewrite cleanup_entry_default, in_window_snoc.
    unfold kept at 1 3. rewrite in_window_idemp. fold kept.
    case_decide; [by left|right]. split; [lia|]. by rewrite app_nil_r.
  - left. by rewrite lookup_insert_eq.
Qed.

Lemma local_storage_no_empty key (W now : Z) (storage : gmap string (list Z))
    (other : string) (timestamps : list Z) :
  (forall k l, storage !! k = Some l -> l <> []) ->
  local_storage key W now storage !! other = Some timestamps ->
  timestamps <> [].
Proof.
  intros Hinv. unfold local_storage. destruct (1000 <? _).
  - rewrite lookup_omap. destruct (_ !! other) as [l|]; simpl; [|done].
    by intros [_ ?]%cleanup_entry_Some.
  - destruct (decide (key = other)) as [->|Hne].
    + rewrite lookup_insert_eq. intros [= <-]. by destruct (in_window _ _).
    + rewrite lookup_insert_ne by done. apply Hinv.
Qed.

End Filtering.

(** ** [checkRateLimit]: which path serves a call *)

Section CheckPaths.

Implicit Types (s : RateLimitService) (key : string)
  (options : RateLimitOptions) (now W : Z) (exec : Reply ExecResult).

Lemma redisRateLimit_fails key options now start W exec s :
  exec_fails exec = true ->
  exists e, redisRateLimit key options now start W exec s = (Throw e, s).
Proof.
  unfold exec_fails, redisRateLimit, mbind, Method_bind, await.
  destruct exec as [[results|]|e]; simpl; eauto.
  destruct (results !! 2%nat) as [[[e|] hits]|]; simpl; eauto. done.
Qed.

Lemma redisRateLimit_succeeds key options now start W exec s :
  exec_fails exec = false ->
  redisRateLimit key options now start W exec s
  = (Normal (store_result options W now exec), s).
Proof.
  unfold exec_fails, redisRateLimit, store_result, store_hits.
  unfold mbind, Method_bind, await.
  destruct exec as [[results|]|e]; simpl; try done.
  destruct (results !! 2%nat) as [[[e|] hits]|]; simpl; done.
Qed.

(** A malformed window is thrown before anything is read or written. *)
Lemma checkRateLimit_throws key options now exec s e :
  parseWindow (window options) = Throw e ->
  checkRateLimit key options now exec s = (Throw e, s).
Proof.
  intros HW. unfold checkRateLimit, mbind, Method_bind, complete.
  by rewrite HW.
Qed.

Lemma checkRateLimit_local key options now exec s W :
  parseWindow (window options) = Normal W ->
  local_path s exec ->
  exists s',
    checkRateLimit key options now exec s
    = (Normal (local_result options W now (history s key)), s')
    /\ redis s' = redis s
    /\ fallbackStorage s' = local_storage key W now (fallbackStorage s).
Proof.
  intros HW Hlocal.
  unfold checkRateLimit, mbind, Method_bind, complete, this_redis.
  rewrite HW. destruct (redis s) as [client|] eqn:Hredis.
  - destruct Hlocal as [?|Hfails]; [congruence|].
    unfold try_catch.
    destruct (redisRateLimit_fails key options now (now - W) W exec s Hfails)
      as [e ->].
    simpl.
    edestruct (fallbackRateLimit_run key options now) as (s' & -> & ? & ?);
      [exact HW|].
    exists s'. split; [done|]. simpl in *. split; congruence.
  - edestruct (fallbackRateLimit_run key options now s) as (s' & -> & ? & ?);
      [exact HW|].
    exists s'. split; [done|]. split; congruence.
Qed.

Lemma checkRateLimit_store key options now exec s W client :
  parseWindow (window options) = Normal W ->
  redis s = Some client ->
  exec_fails exec = false ->
  checkRateLimit key options now exec s
  = (Normal (store_result options W now exec), s).
Proof.
  intros HW Hredis Hok.
  unfold checkRateLimit, mbind, Method_bind, complete, this_redis.
  rewrite HW, Hredis. unfold try_catch.
  by rewrite redisRateLimit_succeeds.
Qed.

Lemma local_path_dec s exec :
  local_path s exec
  \/ (exists client, redis s = Some client) /\ exec_fails exec = false.
Proof.
  unfold local_path. destruct (redis s); destruct (exec_fails exec); eauto.
Qed.

(** The results of a check, and the client and the map it leaves, depend on
    the client and on the map alone. *)
Lemma checkRateLimit_ext key options now exec s1 s2 :
  redis s1 = redis s2 ->
  fallbackStorage s1 = fallbackStorage s2 ->
  (checkRateLimit key options now exec s1).1
  = (checkRateLimit key options now exec s2).1
  /\ redis (checkRateLimit key options now exec s1).2
     = redis (checkRateLimit key options now exec s2).2
  /\ fallbackStorage (checkRateLimit key options now exec s1).2
     = fallbackStorage (checkRateLimit key options now exec s2).2.
Proof.
  intros Hredis Hstorage.
  destruct (parseWindow (window options)) as [W|e] eqn:HW.
  - destruct (local_path_dec s1 exec) as [Hlocal|[[client Hclient] Hok]].
    + assert (local_path s2 exec) as Hlocal2.
      { unfold local_path in *. by rewrite <- Hredis. }
      destruct (checkRateLimit_local key options now exec s1 W HW Hlocal)
        as (s1' & -> & ? & ?).
      destruct (checkRateLimit_local key options now exec s2 W HW Hlocal2)
        as (s2' & -> & ? & ?).
      simpl. unfold history. rewrite Hstorage. split; [done|].
      split; congruence.
    + rewrite (checkRateLimit_store _ _ _ _ s1 W client) by done.
      rewrite (checkRateLimit_store _ _ _ _ s2 W client) by congruence.
      done.
  - rewrite !(checkRateLimit_throws _ _ _ _ _ e) by done. done.
Qed.

End CheckPaths.

(** ** Claims on a single check *)

Section SingleCheck.

Implicit Types (s : RateLimitService) (key : string)
  (options : RateLimitOptions) (now W : Z) (exec : Reply ExecResult).


Lemma local_result_formulas options W now recorded :
  let r := local_result options W now recorded in
  (allowed r = true <-> totalHits r <= requests options)
  /\ remaining r = Z.max 0 (requests options - totalHits r)
  /\ resetTime r = now + W.
Proof. simpl. by rewrite Z.leb_le. Qed.

Lemma local_result_hits options W now recorded :
  totalHits (local_result options W now recorded)
  = Z.of_nat (length (in_window (now - W) recorded)) + 1.
Proof. simpl. rewrite length_app. simpl. lia. Qed.

Lemma checkRateLimit_returns s key options now exec W :
  parseWindow (window options) = Normal W ->
  exists r s',
    checkRateLimit key options now exec s = (Normal r, s')
    /\ (allowed r = true <-> totalHits r <= requests options)
    /\ remaining r = Z.max 0 (requests options - totalHits r)
    /\ resetTime r = now + W.
Proof.
  intros HW.
  destruct (local_path_dec s exec) as [Hlocal|[[client Hclient] Hok]].
  - destruct (checkRateLimit_local key options now exec s W HW Hlocal)
      as (s' & -> & _).
    eexists _, s'. split; [done|]. apply local_result_formulas.
  - rewrite (checkRateLimit_store _ _ _ _ s W client) by done.
    eexists _, s. split; [done|]. simpl. by rewrite Z.leb_le.
Qed.

(** C2.  For every key, every policy whose window parses, every state and
    every store reply, [checkRateLimit] returns a record in which [allowed]
    is true exactly when [totalHits <= limit], [remaining] is
    [max(0, limit - totalHits)] and [resetTime] is [now + windowMs]; the
    local-memory path and the shared-store path both compute these. *)
Theorem C2_result_formulas s key options now exec W :
  parseWindow (window options) = Normal W ->
  exists r s',
    checkRateLimit key options now exec s = (Normal r, s')
    /\ (allowed r = true <-> totalHits r <= requests options)
    /\ remaining r = Z.max 0 (requests options - totalHits r)
    /\ resetTime r = now + W.
Proof. apply checkRateLimit_returns. Qed.

(** C2 at the first check of a fresh service. *)
Lemma C2_result_formulas_witness :
  parseWindow (window (per_minute 3)) = Normal 60000
  /\ exists r s',
      checkRateLimit "u1" (per_minute 3) 1000 (Resolved None) new_service
      = (Normal r, s')
      /\ (allowed r = true <-> totalHits r <= requests (per_minute 3))
      /\ remaining r = Z.max 0 (requests (per_minute 3) - totalHits r)
      /\ resetTime r = 1000 + 60000.
Proof.
  split; [reflexivity|].
  apply (C2_result_formulas new_service "u1" (per_minute 3) 1000
           (Resolved None) 60000).
  reflexivity.
Defined.

(** C5.  On the local-memory path, a check at time [now] with parsed window
    [W] counts, besides its own hit, exactly the recorded hits whose
    timestamp is strictly greater than [now - W]; every recorded hit at or
    before [now - W] is left out of the count and is gone from the history
    stored under the key after the call, which holds the hits kept followed
    by the call's own (or the hits kept alone, when the window is empty and
    the sweep ran). *)
Theorem C5_window_rollover s key options now exec W :
  parseWindow (window options) = Normal W ->
  local_path s exec ->
  exists r s',
    checkRateLimit key options now exec s = (Normal r, s')
    /\ let kept := filter (fun t => now - W < t) (history s key) in
       totalHits r = Z.of_nat (length kept) + 1
       /\ (forall t, t ∈ kept <-> t ∈ history s key /\ now - W < t)
       /\ (forall t, t ∈ history s key -> t <= now - W -> t ∉ kept)
       /\ (history s' key = kept ++ [now]
           \/ (W = 0 /\ history s' key = kept)).
Proof.
  intros HW Hlocal.
  destruct (checkRateLimit_local key options now exec s W HW Hlocal)
    as (s' & -> & _ & Hstorage).
  eexists _, s'. split; [done|]. intros kept.
  split; [apply local_result_hits|].
  split; [apply elem_of_in_window|].
  split.
  { intros t _ Hold Hin. apply elem_of_in_window in Hin. lia. }
  unfold history. rewrite Hstorage.
  destruct (local_storage_key key W now (fallbackStorage s)) as [H|[HW0 H]].
  - by left.
  - right. split; [|done].
    apply parseWindow_sign in HW. lia.
Qed.

(** C5 at a history of two hits, the older of which has left the window. *)
Lemma C5_window_rollover_witness :
  parseWindow (window (per_minute 5)) = Normal 60000
  /\ local_path (with_storage two_hits) (Resolved None)
  /\ exists r s',
      checkRateLimit "u1" (per_minute 5) 70000 (Resolved None)
        (with_storage two_hits) = (Normal r, s')
      /\ totalHits r = 2
      /\ 1000 ∉ filter (fun t => 70000 - 60000 < t)
                  (history (with_storage two_hits) "u1").
Proof.
  split; [reflexivity|]. split; [by left|].
  destruct (C5_window_rollover (with_storage two_hits) "u1" (per_minute 5)
              70000 (Resolved None) 60000 eq_refl (or_introl eq_refl))
    as (r & s' & Hrun & Hhits & _ & Hout & _).
  exists r, s'. split; [exact Hrun|]. split; [exact Hhits|].
  apply Hout; [|lia]. vm_compute. apply list_elem_of_here.
Defined.







End SingleCheck.

(** ** A burst of checks inside one window *)

Section Burst.

Variables (key : string) (options : RateLimitOptions) (W first : Z).
Hypothesis HW : parseWindow (window options) = Normal W.

Local Abbreviation inside := (inside_window first W).

Lemma local_path_redis s s' exec :
  redis s' = redis s -> local_path s exec -> local_path s' exec.
Proof. unfold local_path. intros ->. done. Qed.

(** One check of the burst: nothing recorded has left the window, so the
    call is the next hit and is appended to the history. *)
Lemma burst_step s now exec :
  local_path s exec ->
  Forall inside (history s key) ->
  inside now ->
  exists s',
    checkRateLimit key options now exec s
    = (Normal (nth_hit options W (S (length (history s key))) now), s')
    /\ redis s' = redis s
    /\ history s' key = history s key ++ [now].
Proof.
  intros Hlocal Hhist Hnow.
  destruct (checkRateLimit_local key options now exec s W HW Hlocal)
    as (s' & -> & Hredis & Hstorage).
  assert (in_window (now - W) (history s key) = history s key) as Hkept.
  { apply in_window_all. eapply Forall_impl; [exact Hhist|].
    unfold inside in *. simpl. intros t ?. lia. }
  exists s'. split; [|split; [done|]].
  - unfold local_result, nth_hit. rewrite Hkept, length_app. simpl.
    by replace (length (history s key) + 1)%nat
      with (S (length (history s key))) by lia.
  - unfold history at 1. rewrite Hstorage.
    destruct (local_storage_key key W now (fallbackStorage s)) as [H|[HW0 _]].
    + fold (history s key) in H. by rewrite Hkept in H.
    + unfold inside in Hnow. lia.
Qed.

Lemma burst_run calls : forall s,
  Forall (fun c => local_path s c.2) calls ->
  Forall inside (history s key) ->
  Forall inside calls.*1 ->
  exists results s',
    checkRateLimit_each key options calls s = (Normal results, s')
    /\ length results = length calls
    /\ forall i now,
         calls.*1 !! i = Some now ->
         results !! i
         = Some (nth_hit options W (length (history s key) + i + 1) now).
Proof.
  induction calls as [|[now exec] calls IH]; intros s Hlocal Hhist Hin.
  - exists [], s. split; [done|]. split; [done|]. intros i now. by destruct i.
  - apply Forall_cons in Hlocal as [Hlocal Hlocals]. simpl in Hin.
    apply Forall_cons in Hin as [Hnow Hin]. simpl in Hlocal.
    destruct (burst_step s now exec Hlocal Hhist Hnow)
      as (s1 & Hrun & Hredis & Hhist1).
    destruct (IH s1) as (results & s' & Hrest & Hlen & Hres).
    { eapply Forall_impl; [exact Hlocals|]. intros c.
      by apply local_path_redis. }
    { rewrite Hhist1. apply Forall_app. split; [done|]. by constructor. }
    { done. }
    exists (nth_hit options W (S (length (history s key))) now :: results), s'.
    split; [|split].
    + simpl. unfold mbind, Method_bind at 1. rewrite Hrun.
      unfold mbind, Method_bind at 1. by rewrite Hrest.
    + simpl. by rewrite Hlen.
    + intros [|i] t; simpl.
      * intros [= <-]. do 3 f_equal. lia.
      * intros Ht. rewrite (Hres i t Ht), Hhist1, length_app. simpl.
        do 2 f_equal. lia.
Qed.

End Burst.

(** C1.  Take a policy with limit [L >= 1] and a window that parses to [W],
    and a state with no hit recorded for the key.  Of [L + 1] checks of that
    key served by the local-memory path, each issued no earlier than the
    first and less than [W] after it, the [i]-th is allowed with
    [totalHits = i] and [remaining = L - i] for every [i <= L], and the
    [(L+1)]-th is refused with [totalHits = L + 1] and [remaining = 0]. *)
Theorem C1_limit_boundary (s : RateLimitService) (key : string)
    (options : RateLimitOptions) (W : Z) (L : nat)
    (calls : list (Z * Reply ExecResult)) (first : Z) :
  parseWindow (window options) = Normal W ->
  requests options = Z.of_nat L -> (1 <= L)%nat ->
  length calls = S L ->
  history s key = [] ->
  Forall (fun c => local_path s c.2) calls ->
  calls.*1 !! 0%nat = Some first ->
  Forall (fun now => first <= now < first + W) calls.*1 ->
  exists results s',
    checkRateLimit_each key options calls s = (Normal results, s')
    /\ length results = S L
    /\ (forall i, (1 <= i <= L)%nat ->
          exists r, results !! (i - 1)%nat = Some r
            /\ allowed r = true
            /\ totalHits r = Z.of_nat i
            /\ remaining r = Z.of_nat L - Z.of_nat i)
    /\ (exists r, results !! L = Some r
          /\ allowed r = false
          /\ totalHits r = Z.of_nat L + 1
          /\ remaining r = 0).
Proof.
  intros HW Hlimit HL Hlen Hfresh Hlocal Hfirst Hinside.
  destruct (burst_run key options W first HW calls s)
    as (results & s' & Hrun & Hlen' & Hres); [done| |done|].
  { rewrite Hfresh. constructor. }
  exists results, s'. split; [done|]. split; [congruence|].
  assert (forall i, (i <= L)%nat -> exists now,
             results !! i = Some (nth_hit options W (i + 1) now)) as Hith.
  { intros i Hi.
    destruct (lookup_lt_is_Some_2 calls.*1 i) as [now Hnow].
    { rewrite length_fmap. lia. }
    exists now. rewrite (Hres i now Hnow), Hfresh. done. }
  split.
  - intros i Hi. destruct (Hith (i - 1)%nat) as [now Hnow]; [lia|].
    eexists. split; [exact Hnow|].
    replace (i - 1 + 1)%nat with i by lia. simpl. rewrite Hlimit.
    split; [apply Z.leb_le; lia|]. split; lia.
  - destruct (Hith L) as [now Hnow]; [lia|].
    eexists. split; [exact Hnow|]. simpl. rewrite Hlimit.
    split; [apply Z.leb_gt; lia|]. split; lia.
Qed.

(** C1 at the limit 3 and four checks inside one minute. *)
Lemma C1_limit_boundary_witness :
  exists results s',
    checkRateLimit_each "u1" (per_minute 3) four_calls new_service
    = (Normal results, s')
    /\ length results = 4%nat
    /\ (forall i, (1 <= i <= 3)%nat ->
          exists r, results !! (i - 1)%nat = Some r
            /\ allowed r = true
            /\ totalHits r = Z.of_nat i
            /\ remaining r = Z.of_nat 3 - Z.of_nat i)
    /\ (exists r, results !! 3%nat = Some r
          /\ allowed r = false
          /\ totalHits r = Z.of_nat 3 + 1
          /\ remaining r = 0).
Proof.
  apply (C1_limit_boundary new_service "u1" (per_minute 3) 60000 3
           four_calls 1000).
  - reflexivity.
  - reflexivity.
  - lia.
  - reflexivity.
  - reflexivity.
  - repeat constructor.
  - reflexivity.
  - repeat constructor; simpl; lia.
Defined.

(** ** [decrementRateLimit] *)

Section Decrement.

Implicit Types (s : RateLimitService) (key : string)
  (zrevrange : Reply (option (list string))) (exec : Reply ExecResult).

(** The local branch pops the last timestamp and writes the rest back, or
    deletes the key when nothing is left. *)
Lemma decrementRateLimit_pop s key zrevrange exec older newest :
  redis s = None ->
  fallbackStorage s !! key = Some (older ++ [newest]) ->
  decrementRateLimit key zrevrange exec s
  = (Normal tt,
     {| redis := redis s;
        fallbackStorage :=
          if decide (length older = 0%nat)
          then delete key (fallbackStorage s)
          else <[key := older]> (fallbackStorage s);
        logger := logger s |}).
Proof.
  intros Hredis Hkey.
  unfold decrementRateLimit, mbind, Method_bind, this_redis, storage_get.
  rewrite Hredis, Hkey.
  destruct (older ++ [newest]) as [|t l] eqn:Hlist.
  { by destruct older. }
  rewrite <- Hlist, removelast_last.
  destruct (decide (length older = 0%nat));
    unfold storage_delete, storage_set, update_storage; by rewrite Hredis.
Qed.

Lemma decrementRateLimit_nothing s key zrevrange exec :
  redis s = None ->
  history s key = [] ->
  decrementRateLimit key zrevrange exec s = (Normal tt, s).
Proof.
  intros Hredis Hkey.
  unfold decrementRateLimit, mbind, Method_bind, this_redis, storage_get.
  rewrite Hredis. unfold history in Hkey.
  destruct (fallbackStorage s !! key) as [[|t l]|]; simpl in *; done.
Qed.

(** With a client attached only the logger is written to. *)
Lemma decrementRateLimit_store s key zrevrange exec client :
  redis s = Some client ->
  exists s',
    decrementRateLimit key zrevrange exec s = (Normal tt, s')
    /\ redis s' = redis s
    /\ fallbackStorage s' = fallbackStorage s.
Proof.
  intros Hredis.
  unfold decrementRateLimit, mbind, Method_bind, this_redis, try_catch, await.
  rewrite Hredis.
  destruct zrevrange as [[[|e1 [|e2 entries]]|]|e]; simpl;
    try (eexists; split; [reflexivity|done]).
  destruct exec as [results|e]; simpl; eexists; (split; [reflexivity|done]).
Qed.

Lemma nonempty_snoc (timestamps : list Z) :
  timestamps <> [] ->
  exists older newest, timestamps = older ++ [newest].
Proof.
  intros Hne. destruct (exists_last Hne) as (older & newest & ->). eauto.
Qed.

Lemma decrementRateLimit_returns s key zrevrange exec :
  (decrementRateLimit key zrevrange exec s).1 = Normal tt.
Proof.
  destruct (redis s) as [client|] eqn:Hredis.
  - by destruct (decrementRateLimit_store s key zrevrange exec client Hredis)
      as (s' & -> & _).
  - destruct (decide (history s key = [])) as [Hnil|Hne].
    + by rewrite decrementRateLimit_nothing.
    + unfold history in Hne.
      destruct (fallbackStorage s !! key) as [timestamps|] eqn:Hkey; [|done].
      destruct (nonempty_snoc timestamps Hne) as (older & newest & ->).
      by rewrite (decrementRateLimit_pop s key zrevrange exec older newest).
Qed.

(** C6.  On the local-memory path (no client attached), when the key's
    history holds [h >= 1] hits, [decrementRateLimit] removes exactly the
    last appended timestamp and leaves every other key alone, so that a check
    for which the [h] hits are all in the window returns [totalHits = h]
    after the decrement, where it would have returned [h + 1] before it; the
    key is deleted when its history becomes empty.  When the key has no
    history the service is left exactly as it was.  On either path the call
    completes normally. *)
Theorem C6_decrement_local :
  (forall s key zrevrange exec older newest,
      redis s = None ->
      fallbackStorage s !! key = Some (older ++ [newest]) ->
      let s' := (decrementRateLimit key zrevrange exec s).2 in
      history s' key = older
      /\ (older = [] -> fallbackStorage s' !! key = None)
      /\ (forall other, other <> key ->
            fallbackStorage s' !! other = fallbackStorage s !! other)
      /\ redis s' = None
      /\ forall options now check W,
           parseWindow (window options) = Normal W ->
           Forall (fun t => now - W < t) (older ++ [newest]) ->
           (exists r s2,
               checkRateLimit key options now check s' = (Normal r, s2)
               /\ totalHits r = Z.of_nat (length (older ++ [newest])))
           /\ (exists r s2,
                 checkRateLimit key options now check s = (Normal r, s2)
                 /\ totalHits r = Z.of_nat (length (older ++ [newest])) + 1))
  /\ (forall s key zrevrange exec,
         redis s = None ->
         history s key = [] ->
         (decrementRateLimit key zrevrange exec s).2 = s)
  /\ (forall s key zrevrange exec,
         (decrementRateLimit key zrevrange exec s).1 = Normal tt).
Proof.
  split; [|split].
  - intros s key zrevrange exec older newest Hredis Hkey s'.
    unfold s'. rewrite (decrementRateLimit_pop s key zrevrange exec older newest)
      by done.
    simpl. clear s'.
    assert (history
              {| redis := redis s;
                 fallbackStorage :=
                   if decide (length older = 0%nat)
                   then delete key (fallbackStorage s)
                   else <[key := older]> (fallbackStorage s);
                 logger := logger s |} key = older) as Hafter.
    { unfold history. simpl. case_decide as Hlen.
      - rewrite lookup_delete_eq. simpl. symmetry. by apply nil_length_inv.
      - by rewrite lookup_insert_eq. }
    split; [exact Hafter|]. split; [|split; [|split; [done|]]].
    + intros ->. simpl. apply lookup_delete_eq.
    + intros other Hother. case_decide.
      * by rewrite lookup_delete_ne.
      * by rewrite lookup_insert_ne.
    + intros options now check W HW Hin. split.
      * edestruct (checkRateLimit_local key options now check) as (s2 & -> & _);
          [exact HW|by left|].
        eexists _, s2. split; [done|].
        rewrite local_result_hits, Hafter.
        apply Forall_app in Hin as [Hin _].
        rewrite in_window_all by done. rewrite length_app. simpl. lia.
      * edestruct (checkRateLimit_local key options now check s) as (s2 & -> & _);
          [exact HW|by left|].
        eexists _, s2. split; [done|].
        rewrite local_result_hits. unfold history. rewrite Hkey. simpl.
        by rewrite in_window_all.
  - intros s key zrevrange exec Hredis Hkey.
    by rewrite decrementRateLimit_nothing.
  - apply decrementRateLimit_returns.
Qed.

(** C6 at a history of two hits. *)
Lemma C6_decrement_local_witness :
  let s' := (decrementRateLimit "u1" (Resolved None) (Resolved None)
               (with_storage two_hits)).2 in
  history s' "u1" = [1000]
  /\ exists r s2,
      checkRateLimit "u1" (per_minute 5) 51000 (Resolved None) s'
      = (Normal r, s2)
      /\ totalHits r = 2.
Proof.
  destruct (proj1 C6_decrement_local (with_storage two_hits) "u1"
              (Resolved None) (Resolved None) [1000] 50000 eq_refl eq_refl)
    as (Hhist & _ & _ & _ & Hcheck).
  split; [exact Hhist|].
  destruct (Hcheck (per_minute 5) 51000 (Resolved None) 60000 eq_refl)
    as [Hafter _].
  - repeat constructor; lia.
  - exact Hafter.
Defined.

End Decrement.

(** ** [healthCheck] *)

Section Health.

Implicit Types (s : RateLimitService) (ping : Reply unit).

Lemma healthCheck_run s ping :
  exists b s',
    healthCheck ping s = (Normal b, s')
    /\ redis s' = redis s
    /\ fallbackStorage s' = fallbackStorage s
    /\ (redis s = None -> b = false)
    /\ (b = true -> exists client, redis s = Some client /\ ping = Resolved tt).
Proof.
  unfold healthCheck, mbind, Method_bind, this_redis, try_catch, await.
  destruct (redis s) as [client|] eqn:Hredis.
  - destruct ping as [[]|e]; simpl.
    + eexists true, _. split; [reflexivity|]. simpl. rewrite Hredis.
      repeat split; eauto. done.
    + eexists false, _. split; [reflexivity|]. simpl. rewrite Hredis.
      repeat split; done.
  - simpl. eexists false, _. split; [reflexivity|]. simpl. rewrite Hredis.
    repeat split; done.
Qed.

(** C9.  [healthCheck] answers [false] whenever no client is attached, never
    throws, and leaves the client handle and the key-to-history map exactly
    as they were, whatever the probe does; a check issued after it therefore
    returns what it would have returned without it, and leaves the same
    handle and the same map. *)
Theorem C9_healthCheck_observes :
  (forall s ping, redis s = None -> (healthCheck ping s).1 = Normal false)
  /\ (forall s ping, exists b, (healthCheck ping s).1 = Normal b)
  /\ (forall s ping,
         redis (healthCheck ping s).2 = redis s
         /\ fallbackStorage (healthCheck ping s).2 = fallbackStorage s)
  /\ (forall s ping key options now exec,
         let after := checkRateLimit key options now exec (healthCheck ping s).2 in
         let plain := checkRateLimit key options now exec s in
         after.1 = plain.1
         /\ redis after.2 = redis plain.2
         /\ fallbackStorage after.2 = fallbackStorage plain.2).
Proof.
  split; [|split; [|split]].
  - intros s ping Hnone.
    destruct (healthCheck_run s ping) as (b & s' & -> & _ & _ & Hfalse & _).
    simpl. by rewrite Hfalse.
  - intros s ping.
    destruct (healthCheck_run s ping) as (b & s' & -> & _). by exists b.
  - intros s ping.
    by destruct (healthCheck_run s ping) as (b & s' & -> & ? & ? & _).
  - intros s ping key options now exec.
    destruct (healthCheck_run s ping) as (b & s' & -> & ? & ? & _).
    simpl. by apply checkRateLimit_ext.
Qed.

(** The first part of C9 at a service with no client. *)
Lemma C9_healthCheck_observes_witness :
  redis (with_storage two_hits) = None
  /\ (healthCheck (Resolved tt) (with_storage two_hits)).1 = Normal false.
Proof.
  split; [reflexivity|].
  exact (proj1 C9_healthCheck_observes (with_storage two_hits) (Resolved tt)
           eq_refl).
Defined.

End Health.

(** ** The map never binds a key to an empty history *)

Section NoEmptyHistory.

Implicit Types (s : RateLimitService) (key : string).

Lemma no_empty_history_storage s s' :
  fallbackStorage s' = fallbackStorage s ->
  no_empty_history s -> no_empty_history s'.
Proof. unfold no_empty_history. by intros ->. Qed.

Lemma initializeRedis_storage redisUrl ioredis connect s :
  fallbackStorage (initializeRedis redisUrl ioredis connect s).2
  = fallbackStorage s.
Proof.
  unfold initializeRedis, try_catch, mbind, Method_bind, await.
  destruct redisUrl as [url|]; simpl; [|done].
  destruct ioredis as [[]|e]; simpl.
  - destruct connect as [[]|e]; simpl; [done|].
    by destruct (module_not_found e).
  - by destruct (module_not_found e).
Qed.

Lemma cleanup_no_empty start s :
  no_empty_history (cleanupFallbackStorage start s).2.
Proof.
  intros key timestamps. simpl. rewrite lookup_omap.
  destruct (fallbackStorage s !! key) as [l|]; simpl; [|done].
  by intros [_ ?]%cleanup_entry_Some.
Qed.

Lemma checkRateLimit_no_empty key options now exec s :
  no_empty_history s ->
  no_empty_history (checkRateLimit key options now exec s).2.
Proof.
  intros Hinv.
  destruct (parseWindow (window options)) as [W|e] eqn:HW.
  - destruct (local_path_dec s exec) as [Hlocal|[[client Hclient] Hok]].
    + destruct (checkRateLimit_local key options now exec s W HW Hlocal)
        as (s' & -> & _ & Hstorage).
      intros other timestamps. simpl. rewrite Hstorage.
      by apply local_storage_no_empty.
    + by rewrite (checkRateLimit_store _ _ _ _ s W client).
  - by rewrite (checkRateLimit_throws _ _ _ _ _ e).
Qed.

Lemma decrementRateLimit_no_empty key zrevrange exec s :
  no_empty_history s ->
  no_empty_history (decrementRateLimit key zrevrange exec s).2.
Proof.
  intros Hinv. destruct (redis s) as [client|] eqn:Hredis.
  - destruct (decrementRateLimit_store s key zrevrange exec client Hredis)
      as (s' & -> & _ & Hstorage).
    by eapply no_empty_history_storage.
  - destruct (decide (history s key = [])) as [Hnil|Hne].
    + by rewrite decrementRateLimit_nothing.
    + unfold history in Hne.
      destruct (fallbackStorage s !! key) as [timestamps|] eqn:Hkey; [|done].
      destruct (nonempty_snoc timestamps Hne) as (older & newest & ->).
      rewrite (decrementRateLimit_pop s key zrevrange exec older newest) by done.
      intros other l. simpl. case_decide as Hlen.
      * destruct (decide (key = other)) as [->|?].
        -- by rewrite lookup_delete_eq.
        -- rewrite lookup_delete_ne by done. apply Hinv.
      * destruct (decide (key = other)) as [->|?].
        -- rewrite lookup_insert_eq. intros [= <-] ->. by apply Hlen.
        -- rewrite lookup_insert_ne by done. apply Hinv.
Qed.

Lemma step_no_empty s s' :
  step s s' -> no_empty_history s -> no_empty_history s'.
Proof.
  destruct 1; intros Hinv.
  - eapply no_empty_history_storage; [apply initializeRedis_storage|done].
  - by apply checkRateLimit_no_empty.
  - by apply decrementRateLimit_no_empty.
  - destruct (healthCheck_run s ping) as (b & s' & -> & _ & Hstorage & _).
    by eapply no_empty_history_storage.
  - intros key timestamps. simpl. by rewrite lookup_empty.
Qed.

Lemma reachable_no_empty s : reachable s -> no_empty_history s.
Proof.
  unfold reachable. intros Hreach.
  eapply (rtc_ind_r no_empty_history new_service); [| |exact Hreach].
  - intros key timestamps. simpl. by rewrite lookup_empty.
  - intros s1 s2 _ Hstep IH. by eapply step_no_empty.
Qed.

(** With an empty window ("0s") the call's own hit is not strictly after
    [windowStart]: when the map holds more than 1000 keys the sweep takes it
    out again, and the key with it if nothing else was kept. *)
Lemma checkRateLimit_empty_window_swept s key options now exec :
  parseWindow (window options) = Normal 0 ->
  local_path s exec ->
  in_window now (history s key) = [] ->
  1000 < Z.of_nat (size (<[key := [now]]> (fallbackStorage s))) ->
  fallbackStorage (checkRateLimit key options now exec s).2 !! key = None.
Proof.
  intros HW Hlocal Hkept Hsize.
  destruct (checkRateLimit_local key options now exec s 0 HW Hlocal)
    as (s' & -> & _ & Hstorage).
  simpl. rewrite Hstorage. unfold local_storage.
  fold (history s key). rewrite Z.sub_0_r, Hkept. simpl.
  apply Z.ltb_lt in Hsize. rewrite Hsize.
  rewrite lookup_omap, lookup_insert_eq. simpl.
  unfold cleanup_entry, in_window. rewrite filter_cons_False by lia.
  done.
Qed.

(** C10, as it is stated, fails in its clause on the check: with the window
    "0s" the call's own hit is not strictly after [windowStart], and in a map
    of more than 1000 keys the sweep takes it out again.  The call returns a
    [totalHits] of 1 and leaves nothing under its key. *)
Lemma C10_own_hit_is_swept :
  (checkRateLimit "u1" {| requests := 5; window := "0s" |} 5000 (Resolved None)
     (with_storage crowded)).1
  = Normal {| allowed := true; remaining := 4; resetTime := 5000;
              totalHits := 1 |}
  /\ fallbackStorage
       (checkRateLimit "u1" {| requests := 5; window := "0s" |} 5000
          (Resolved None) (with_storage crowded)).2 !! "u1" = None.
Proof. vm_compute. done. Qed.

(** C10, amended.  In every state the service can reach, and so after every
    completed [checkRateLimit], [decrementRateLimit] and [onModuleDestroy],
    the fallback map binds no key to an empty list of timestamps.  Each
    operation keeps it so: a check leaves the key bound to a history that
    ends with the call's own hit whenever its window is longer than zero or
    the map, with the key in it, holds at most 1000 keys; decrement deletes
    the key whose last hit it pops; the sweep leaves no empty history behind
    and deletes every key whose pruned history is empty; shutdown empties
    the map. *)
Theorem C10_no_empty_history :
  (forall s, reachable s -> no_empty_history s)
  /\ (forall s key options now exec,
         no_empty_history s ->
         no_empty_history (checkRateLimit key options now exec s).2)
  /\ (forall s key options now exec W,
         parseWindow (window options) = Normal W ->
         local_path s exec ->
         0 < W
         \/ (size (<[key := in_window (now - W) (history s key) ++ [now]]>
                     (fallbackStorage s)) <= 1000)%nat ->
         exists older,
           fallbackStorage (checkRateLimit key options now exec s).2 !! key
           = Some (older ++ [now]))
  /\ (forall s key zrevrange exec,
         no_empty_history s ->
         no_empty_history (decrementRateLimit key zrevrange exec s).2)
  /\ (forall s key zrevrange exec newest,
         redis s = None ->
         fallbackStorage s !! key = Some [newest] ->
         fallbackStorage (decrementRateLimit key zrevrange exec s).2 !! key
         = None)
  /\ (forall s start, no_empty_history (cleanupFallbackStorage start s).2)
  /\ (forall s start key timestamps,
         fallbackStorage s !! key = Some timestamps ->
         in_window start timestamps = [] ->
         fallbackStorage (cleanupFallbackStorage start s).2 !! key = None)
  /\ (forall s, fallbackStorage (onModuleDestroy s).2 = ∅).
Proof.
  split; [exact reachable_no_empty|].
  split; [intros; by apply checkRateLimit_no_empty|].
  split.
  { intros s key options now exec W HW Hlocal Hcase.
    destruct (checkRateLimit_local key options now exec s W HW Hlocal)
      as (s' & -> & _ & Hstorage).
    simpl. rewrite Hstorage.
    destruct Hcase as [Hpos|Hsize].
    - destruct (local_storage_key key W now (fallbackStorage s)) as [H|[? _]];
        [|lia].
      destruct (local_storage key W now (fallbackStorage s) !! key) as [l|];
        simpl in H.
      + rewrite H. eauto.
      + by destruct (in_window _ _).
    - unfold local_storage. fold (history s key).
      destruct (1000 <? _) eqn:Hlt; [apply Z.ltb_lt in Hlt; lia|].
      rewrite lookup_insert_eq. eauto. }
  split; [intros; by apply decrementRateLimit_no_empty|].
  split.
  { intros s key zrevrange exec newest Hredis Hkey.
    rewrite (decrementRateLimit_pop s key zrevrange exec [] newest) by done.
    simpl. apply lookup_delete_eq. }
  split; [intros; apply cleanup_no_empty|].
  split; [|done].
  intros s start key timestamps Hkey Hnil. simpl.
  rewrite lookup_omap, Hkey. simpl. unfold cleanup_entry. by rewrite Hnil.
Qed.

(** C10 at the state a first check leaves. *)
Lemma C10_no_empty_history_witness :
  reachable (checkRateLimit "u1" (per_minute 3) 1000 (Resolved None)
               new_service).2
  /\ no_empty_history (checkRateLimit "u1" (per_minute 3) 1000 (Resolved None)
                         new_service).2.
Proof.
  assert (reachable (checkRateLimit "u1" (per_minute 3) 1000 (Resolved None)
                       new_service).2) as Hreach.
  { apply rtc_once. apply step_checkRateLimit. }
  split; [exact Hreach|].
  exact (proj1 C10_no_empty_history _ Hreach).
Defined.

End NoEmptyHistory.

(** ** Further properties of the service *)

Section ServiceExtras.

Implicit Types (s : RateLimitService) (key : string)
  (options : RateLimitOptions) (now W : Z) (exec : Reply ExecResult).

(** X1.  [initializeRedis] never throws and never touches the fallback map.
    It attaches a client exactly when a URL is configured and the import and
    the constructor succeed; the client stays attached when the connection
    is then refused.  In every other case the handle is left as it was. *)
Theorem initializeRedis_outcome (redisUrl : option string)
    (ioredis connect : Reply unit) s :
  (initializeRedis redisUrl ioredis connect s).1 = Normal tt
  /\ fallbackStorage (initializeRedis redisUrl ioredis connect s).2
     = fallbackStorage s
  /\ redis (initializeRedis redisUrl ioredis connect s).2
     = match redisUrl, ioredis with
       | Some url, Resolved _ => Some (Redis url)
       | _, _ => redis s
       end.
Proof.
  unfold initializeRedis, try_catch, mbind, Method_bind, await.
  destruct redisUrl as [url|]; simpl; [|done].
  destruct ioredis as [[]|e]; simpl.
  - destruct connect as [[]|e]; simpl; [done|].
    by destruct (module_not_found e).
  - by destruct (module_not_found e).
Qed.

Lemma cleanup_history start s key :
  history (cleanupFallbackStorage start s).2 key
  = in_window start (history s key).
Proof.
  unfold history. simpl. rewrite lookup_omap.
  destruct (fallbackStorage s !! key) as [l|]; simpl; [|done].
  apply cleanup_entry_default.
Qed.

(** X2.  The sweep replaces every history by its part strictly after
    [windowStart], keeps a key exactly when some hit of it is after
    [windowStart], never adds a key, leaves the client alone, and sweeping
    twice with the same [windowStart] is sweeping once. *)
Theorem cleanupFallbackStorage_sweep (start : Z) s :
  (forall key,
      history (cleanupFallbackStorage start s).2 key
      = in_window start (history s key))
  /\ (forall key,
         is_Some (fallbackStorage (cleanupFallbackStorage start s).2 !! key)
         <-> exists t, t ∈ history s key /\ start < t)
  /\ (size (fallbackStorage (cleanupFallbackStorage start s).2)
      <= size (fallbackStorage s))%nat
  /\ redis (cleanupFallbackStorage start s).2 = redis s
  /\ fallbackStorage
       (cleanupFallbackStorage start (cleanupFallbackStorage start s).2).2
     = fallbackStorage (cleanupFallbackStorage start s).2.
Proof.
  split; [intros; apply cleanup_history|]. split; [|split; [|split; [done|]]].
  - intros key. unfold history. simpl. rewrite lookup_omap.
    destruct (fallbackStorage s !! key) as [l|]; simpl.
    + unfold cleanup_entry. case_decide as Hlen.
      * apply nil_length_inv in Hlen. split; [by intros []|].
        intros (t & Ht & Hlt).
        assert (t ∈ in_window start l) as Hin by by apply elem_of_in_window.
        rewrite Hlen in Hin. by apply not_elem_of_nil in Hin.
      * split; [|eauto]. intros _.
        destruct (in_window start l) as [|t rest] eqn:Hkept; [done|].
        exists t. apply elem_of_in_window. rewrite Hkept. apply list_elem_of_here.
    + split; [by intros []|]. intros (t & Ht & _). by apply not_elem_of_nil in Ht.
  - simpl. rewrite <- !(size_dom (D := gset string)).
    apply subseteq_size, dom_omap_subseteq.
  - simpl. apply map_eq. intros key. rewrite !lookup_omap.
    destruct (fallbackStorage s !! key) as [l|]; simpl; [|done].
    destruct (cleanup_entry start l) as [valid|] eqn:Hvalid; simpl; [|done].
    apply cleanup_entry_Some in Hvalid as [-> Hne].
    unfold cleanup_entry. rewrite in_window_idemp.
    case_decide as Hlen; [|done]. by apply nil_length_inv in Hlen.
Qed.

(** X3.  A check on the local-memory path reaches the other keys only through
    the sweep: while the map, with the checked key in it, holds at most 1000
    keys every other entry is left as it was; beyond that every other history
    is cut down to its part after this call's own [now - W], whatever window
    those keys are checked with. *)
Theorem local_check_other_keys s key options now exec W (other : string) :
  parseWindow (window options) = Normal W ->
  local_path s exec ->
  other <> key ->
  let stored :=
    <[key := in_window (now - W) (history s key) ++ [now]]> (fallbackStorage s) in
  let s' := (checkRateLimit key options now exec s).2 in
  ((size stored <= 1000)%nat ->
   fallbackStorage s' !! other = fallbackStorage s !! other)
  /\ ((1000 < size stored)%nat ->
      history s' other = in_window (now - W) (history s other)).
Proof.
  intros HW Hlocal Hother stored s'. unfold s'.
  destruct (checkRateLimit_local key options now exec s W HW Hlocal)
    as (s1 & -> & _ & Hstorage).
  simpl.
  replace (history s1 other)
    with (default [] (local_storage key W now (fallbackStorage s) !! other))
    by (unfold history; by rewrite Hstorage).
  rewrite Hstorage. unfold local_storage.
  fold (history s key). fold stored. split; intros Hsize.
  - destruct (1000 <? Z.of_nat (size stored)) eqn:Hlt.
    + apply Z.ltb_lt in Hlt. lia.
    + unfold stored. by rewrite lookup_insert_ne.
  - destruct (1000 <? Z.of_nat (size stored)) eqn:Hlt.
    + rewrite lookup_omap. unfold stored. rewrite lookup_insert_ne by done.
      unfold history. destruct (fallbackStorage s !! other) as [l|]; simpl; [|done].
      apply cleanup_entry_default.
    + apply Z.ltb_ge in Hlt. lia.
Qed.

(** X3 at a map of two keys. *)
Lemma local_check_other_keys_witness :
  let s' := (checkRateLimit "u2" (per_minute 5) 70000 (Resolved None)
               (with_storage two_hits)).2 in
  fallbackStorage s' !! "u1" = Some [1000; 50000].
Proof.
  assert (("u1" : string) <> "u2") as Hne by discriminate.
  destruct (local_check_other_keys (with_storage two_hits) "u2" (per_minute 5)
              70000 (Resolved None) 60000 "u1" eq_refl (or_introl eq_refl) Hne)
    as [Hkeep _].
  simpl. rewrite Hkeep; [reflexivity|]. vm_compute. lia.
Defined.

Lemma checkRateLimit_each_store s key options W client
    (calls : list (Z * Reply ExecResult)) :
  parseWindow (window options) = Normal W ->
  redis s = Some client ->
  Forall (fun c => exec_fails c.2 = false) calls ->
  checkRateLimit_each key options calls s
  = (Normal (map (fun c => store_result options W c.1 c.2) calls), s).
Proof.
  intros HW Hclient. induction 1 as [|[now exec] calls Hok _ IH]; [done|].
  simpl in *. unfold mbind, Method_bind at 1.
  rewrite (checkRateLimit_store _ _ _ _ s W client) by done.
  unfold mbind, Method_bind at 1. by rewrite IH.
Qed.

Lemma checkRateLimit_each_app key options
    (calls1 calls2 : list (Z * Reply ExecResult)) s :
  checkRateLimit_each key options (calls1 ++ calls2) s
  = match checkRateLimit_each key options calls1 s with
    | (Normal results1, s1) =>
        match checkRateLimit_each key options calls2 s1 with
        | (Normal results2, s2) => (Normal (results1 ++ results2), s2)
        | (Throw e, s2) => (Throw e, s2)
        end
    | (Throw e, s1) => (Throw e, s1)
    end.
Proof.
  revert s. induction calls1 as [|[t e] calls1 IH]; intros s; simpl.
  - by destruct (checkRateLimit_each key options calls2 s) as [[?|?] ?].
  - unfold mbind, Method_bind, mret, Method_ret.
    destruct (checkRateLimit key options t e s) as [[r|err] s']; [|done].
    rewrite IH.
    destruct (checkRateLimit_each key options calls1 s') as [[rs|err] s1]; [|done].
    by destruct (checkRateLimit_each key options calls2 s1) as [[?|?] ?].
Qed.

(** X4.  Hits counted by the shared store are unknown to the fallback.  While
    the transaction succeeds, checks return the store's count (a missing
    count reads as 0) and leave the service exactly as it was; the first
    check whose transaction fails then counts the hits recorded locally and
    itself, however many the store had counted. *)
Theorem store_hits_unknown_to_fallback s key options W client
    (calls : list (Z * Reply ExecResult)) now exec :
  parseWindow (window options) = Normal W ->
  redis s = Some client ->
  Forall (fun c => exec_fails c.2 = false) calls ->
  exec_fails exec = true ->
  exists results s',
    checkRateLimit_each key options (calls ++ [(now, exec)]) s
    = (Normal results, s')
    /\ (forall i c, calls !! i = Some c ->
          exists r, results !! i = Some r /\ totalHits r = store_hits c.2)
    /\ exists r, results !! length calls = Some r
         /\ totalHits r
            = Z.of_nat (length (in_window (now - W) (history s key))) + 1.
Proof.
  intros HW Hclient Hok Hfails.
  rewrite checkRateLimit_each_app.
  rewrite (checkRateLimit_each_store s key options W client calls HW Hclient Hok).
  simpl. unfold mbind, Method_bind at 1.
  destruct (checkRateLimit_local key options now exec s W HW (or_intror Hfails))
    as (s' & -> & _).
  simpl. eexists _, s'. split; [done|]. split.
  - intros i c Hc. eexists. split.
    + apply lookup_app_l_Some. rewrite list_lookup_fmap, Hc. done.
    + done.
  - eexists. split.
    + rewrite lookup_app_r; rewrite length_map; [|lia].
      by rewrite Nat.sub_diag.
    + apply local_result_hits.
Qed.

(** X4 at two counted checks followed by a refused connection. *)
Lemma store_hits_unknown_to_fallback_witness :
  exists results s',
    checkRateLimit_each "u1" (per_minute 5)
      ([(1000, Resolved (Some [(None, Some 1); (None, Some 1); (None, Some 4)]));
        (1001, Resolved (Some [(None, Some 1); (None, Some 1); (None, Some 5)]))]
       ++ [(1002, Rejected (ClientError "ECONNREFUSED"))])
      (attached ∅)
    = (Normal results, s')
    /\ exists r, results !! 2%nat = Some r /\ totalHits r = 1.
Proof.
  destruct (store_hits_unknown_to_fallback (attached ∅) "u1" (per_minute 5)
              60000 (Redis "redis://localhost:6379")
              [(1000, Resolved (Some [(None, Some 1); (None, Some 1); (None, Some 4)]));
               (1001, Resolved (Some [(None, Some 1); (None, Some 1); (None, Some 5)]))]
              1002 (Rejected (ClientError "ECONNREFUSED")))
    as (results & s' & Hrun & _ & Hlast); try reflexivity.
  - repeat constructor.
  - exists results, s'. split; [exact Hrun|]. exact Hlast.
Defined.

End ServiceExtras.

(** ** Checks and decrements together *)

Section Compensation.

Implicit Types (s : RateLimitService) (key : string)
  (options : RateLimitOptions) (now W : Z) (exec : Reply ExecResult)
  (zrevrange : Reply (option (list string))).

(** What one decrement does to the history of its key with no client
    attached, whether or not there is a hit to take back. *)
Lemma decrementRateLimit_history s key zrevrange exec :
  redis s = None ->
  (decrementRateLimit key zrevrange exec s).1 = Normal tt
  /\ redis (decrementRateLimit key zrevrange exec s).2 = None
  /\ history (decrementRateLimit key zrevrange exec s).2 key
     = removelast (history s key)
  /\ forall other, other <> key ->
       fallbackStorage (decrementRateLimit key zrevrange exec s).2 !! other
       = fallbackStorage s !! other.
Proof.
  intros Hredis.
  destruct (decide (history s key = [])) as [Hnil|Hne].
  - rewrite decrementRateLimit_nothing by done. simpl. by rewrite Hnil.
  - unfold history in Hne |- *.
    destruct (fallbackStorage s !! key) as [timestamps|] eqn:Hkey; [|done].
    destruct (nonempty_snoc timestamps Hne) as (older & newest & ->).
    rewrite (decrementRateLimit_pop s key zrevrange exec older newest) by done.
    simpl. rewrite removelast_last. split; [done|]. split; [done|]. split.
    + case_decide as Hlen.
      * rewrite lookup_delete_eq. simpl. symmetry. by apply nil_length_inv.
      * by rewrite lookup_insert_eq.
    + intros other Hother. case_decide.
      * by rewrite lookup_delete_ne.
      * by rewrite lookup_insert_ne.
Qed.

(** X5.  With no client attached and a window that is not empty, a decrement
    issued right after a check takes back exactly the hit of that check: the
    key is left with the hits the check had kept, and the other keys as the
    check left them.  If moreover nothing had left the window and the sweep
    did not run, the map is the one from before the check. *)
Theorem check_then_decrement_restores s key options now W exec zrevrange
    (exec' : Reply ExecResult) :
  parseWindow (window options) = Normal W ->
  0 < W ->
  redis s = None ->
  let s1 := (checkRateLimit key options now exec s).2 in
  let s2 := (decrementRateLimit key zrevrange exec' s1).2 in
  history s2 key = in_window (now - W) (history s key)
  /\ (forall other, other <> key ->
        fallbackStorage s2 !! other = fallbackStorage s1 !! other)
  /\ (Forall (fun t => now - W < t) (history s key) ->
      fallbackStorage s !! key <> Some [] ->
      (size (<[key := history s key ++ [now]]> (fallbackStorage s)) <= 1000)%nat ->
      fallbackStorage s2 = fallbackStorage s).
Proof.
  intros HW Hpos Hredis s1 s2. unfold s2, s1. clear s1 s2.
  destruct (checkRateLimit_local key options now exec s W HW (or_introl Hredis))
    as (s1 & Hrun & Hredis1 & Hstorage).
  rewrite Hrun. simpl. rewrite Hredis in Hredis1.
  destruct (decrementRateLimit_history s1 key zrevrange exec' Hredis1)
    as (_ & _ & Hhist & Hothers).
  assert (history s1 key = in_window (now - W) (history s key) ++ [now]) as Hs1.
  { unfold history at 1. rewrite Hstorage.
    destruct (local_storage_key key W now (fallbackStorage s)) as [H|[? _]];
      [done|lia]. }
  split; [by rewrite Hhist, Hs1, removelast_last|]. split; [done|].
  intros Hin Hne Hsize. apply map_eq. intros k.
  destruct (decide (k = key)) as [->|Hk].
  - assert (history (decrementRateLimit key zrevrange exec' s1).2 key
            = history s key) as Hsame.
    { by rewrite Hhist, Hs1, removelast_last, in_window_all. }
    pose proof (decrementRateLimit_no_empty key zrevrange exec' s1) as Hinv.
    assert (forall l, fallbackStorage s1 !! key = Some l -> l <> []) as Hkey1.
    { intros l Hl. unfold history in Hs1. rewrite Hl in Hs1. simpl in Hs1.
      rewrite Hs1. by destruct (in_window _ _). }
    assert (forall l,
               fallbackStorage (decrementRateLimit key zrevrange exec' s1).2 !! key
               = Some l -> l <> []) as Hkey2.
    { intros l. unfold history in Hs1.
      destruct (fallbackStorage s1 !! key) as [l1|] eqn:Hl1; simpl in Hs1;
        [|by destruct (in_window _ _)].
      destruct (nonempty_snoc l1 (Hkey1 l1 eq_refl)) as (older & newest & ->).
      rewrite (decrementRateLimit_pop s1 key zrevrange exec' older newest) by done.
      simpl. case_decide as Hlen.
      - by rewrite lookup_delete_eq.
      - rewrite lookup_insert_eq. intros [= <-] ->. by apply Hlen. }
    unfold history in Hsame.
    destruct (fallbackStorage (decrementRateLimit key zrevrange exec' s1).2 !! key)
      as [l2|] eqn:Hl2;
      destruct (fallbackStorage s !! key) as [l|] eqn:Hl; simpl in Hsame.
    + by rewrite Hsame.
    + by destruct (Hkey2 l2).
    + subst l. by destruct Hne.
    + done.
  - rewrite Hothers by done. rewrite Hstorage. unfold local_storage.
    fold (history s key). rewrite in_window_all by done.
    destruct (1000 <? _) eqn:Hlt; [apply Z.ltb_lt in Hlt; lia|].
    by rewrite lookup_insert_ne.
Qed.

(** X5 at a history of two hits that are both still in the window. *)
Lemma check_then_decrement_restores_witness :
  fallbackStorage
    (decrementRateLimit "u1" (Resolved None) (Resolved None)
       (checkRateLimit "u1" (per_minute 5) 51000 (Resolved None)
          (with_storage two_hits)).2).2
  = fallbackStorage (with_storage two_hits).
Proof.
  destruct (check_then_decrement_restores (with_storage two_hits) "u1"
              (per_minute 5) 51000 60000 (Resolved None) (Resolved None)
              (Resolved None) eq_refl eq_refl eq_refl)
    as (_ & _ & Hsame).
  apply Hsame.
  - repeat constructor; lia.
  - discriminate.
  - vm_compute. lia.
Defined.

Lemma removelast_take (timestamps : list Z) :
  removelast timestamps = take (length timestamps - 1) timestamps.
Proof.
  destruct (decide (timestamps = [])) as [->|Hne]; [done|].
  destruct (nonempty_snoc timestamps Hne) as (older & newest & ->).
  rewrite removelast_last, length_app. simpl.
  replace (length older + 1 - 1)%nat with (length older) by lia.
  by rewrite take_app_length.
Qed.

Lemma decrementRateLimit_each_history key
    (replies : list (Reply (option (list string)) * Reply ExecResult)) : forall s,
  redis s = None ->
  (decrementRateLimit_each key replies s).1 = Normal tt
  /\ redis (decrementRateLimit_each key replies s).2 = None
  /\ history (decrementRateLimit_each key replies s).2 key
     = take (length (history s key) - length replies) (history s key)
  /\ forall other, other <> key ->
       fallbackStorage (decrementRateLimit_each key replies s).2 !! other
       = fallbackStorage s !! other.
Proof.
  induction replies as [|[zrevrange exec] replies IH]; intros s Hredis.
  - simpl. rewrite Nat.sub_0_r, firstn_all. done.
  - destruct (decrementRateLimit_history s key zrevrange exec Hredis)
      as (Hret & Hredis1 & Hhist & Hothers).
    simpl. unfold mbind, Method_bind.
    destruct (decrementRateLimit key zrevrange exec s) as [[[]|e] s1];
      simpl in *; [|done].
    destruct (IH s1 Hredis1) as (Hret' & Hredis' & Hhist' & Hothers').
    split; [done|]. split; [done|]. split.
    + rewrite Hhist', Hhist, removelast_take, take_take, length_take.
      f_equal. lia.
    + intros other Hother. by rewrite Hothers', Hothers.
Qed.

Lemma decrementRateLimit_each_no_empty key
    (replies : list (Reply (option (list string)) * Reply ExecResult)) : forall s,
  no_empty_history s ->
  no_empty_history (decrementRateLimit_each key replies s).2.
Proof.
  induction replies as [|[zrevrange exec] replies IH]; intros s Hinv; [done|].
  simpl. unfold mbind, Method_bind.
  pose proof (decrementRateLimit_no_empty key zrevrange exec s Hinv) as Hinv1.
  pose proof (decrementRateLimit_returns s key zrevrange exec) as Hret.
  destruct (decrementRateLimit key zrevrange exec s) as [[[]|e] s1];
    simpl in *; [|done].
  by apply IH.
Qed.

(** X6.  With no client attached, decrements take hits back newest first:
    after [n] of them the key holds its first [h - n] hits, in order, no
    other key has changed and no call has thrown; once [n] reaches the number
    of hits the key is gone from the map, and further decrements do
    nothing. *)
Theorem decrement_each_unwinds s key
    (replies : list (Reply (option (list string)) * Reply ExecResult)) :
  redis s = None ->
  (decrementRateLimit_each key replies s).1 = Normal tt
  /\ history (decrementRateLimit_each key replies s).2 key
     = take (length (history s key) - length replies) (history s key)
  /\ (forall other, other <> key ->
        fallbackStorage (decrementRateLimit_each key replies s).2 !! other
        = fallbackStorage s !! other)
  /\ (no_empty_history s ->
      (length (history s key) <= length replies)%nat ->
      fallbackStorage (decrementRateLimit_each key replies s).2 !! key = None).
Proof.
  intros Hredis.
  destruct (decrementRateLimit_each_history key replies s Hredis)
    as (Hret & _ & Hhist & Hothers).
  split; [done|]. split; [done|]. split; [done|].
  intros Hinv Hlen.
  pose proof (decrementRateLimit_each_no_empty key replies s Hinv) as Hinv'.
  replace (length (history s key) - length replies)%nat with 0%nat in Hhist
    by lia.
  simpl in Hhist. unfold history in Hhist.
  destruct (fallbackStorage (decrementRateLimit_each key replies s).2 !! key)
    as [l|] eqn:Hl; [|done].
  simpl in Hhist. subst l. by destruct (Hinv' key [] Hl).
Qed.

(** X6 at three decrements of a history of two hits. *)
Lemma decrement_each_unwinds_witness :
  (decrementRateLimit_each "u1"
     [(Resolved None, Resolved None); (Resolved None, Resolved None);
      (Resolved None, Resolved None)]
     (with_storage two_hits)).1 = Normal tt
  /\ history
       (decrementRateLimit_each "u1"
          [(Resolved None, Resolved None); (Resolved None, Resolved None);
           (Resolved None, Resolved None)]
          (with_storage two_hits)).2 "u1" = [].
Proof.
  destruct (decrement_each_unwinds (with_storage two_hits) "u1"
              [(Resolved None, Resolved None); (Resolved None, Resolved None);
               (Resolved None, Resolved None)] eq_refl)
    as (Hret & Hhist & _).
  split; [exact Hret|]. exact Hhist.
Defined.

(** X7.  A hit the fallback recorded because the store transaction failed
    cannot be taken back while a client is attached: [decrementRateLimit]
    then only talks to the store, and whatever the store answers the local
    history still ends with that hit. *)
Theorem fallback_hit_survives_decrement s key options now W exec zrevrange
    (exec' : Reply ExecResult) (client : RedisClient) :
  parseWindow (window options) = Normal W ->
  0 < W ->
  redis s = Some client ->
  exec_fails exec = true ->
  let s1 := (checkRateLimit key options now exec s).2 in
  let s2 := (decrementRateLimit key zrevrange exec' s1).2 in
  history s1 key = in_window (now - W) (history s key) ++ [now]
  /\ fallbackStorage s2 = fallbackStorage s1
  /\ redis s2 = Some client.
Proof.
  intros HW Hpos Hclient Hfails s1 s2. unfold s2, s1. clear s1 s2.
  destruct (checkRateLimit_local key options now exec s W HW (or_intror Hfails))
    as (s1 & -> & Hredis1 & Hstorage).
  simpl. rewrite Hclient in Hredis1.
  destruct (decrementRateLimit_store s1 key zrevrange exec' client Hredis1)
    as (s2 & -> & Hredis2 & Hstorage2).
  simpl. split; [|split; congruence].
  unfold history at 1. rewrite Hstorage.
  destruct (local_storage_key key W now (fallbackStorage s)) as [H|[? _]];
    [done|lia].
Qed.

(** X7 at a refused connection followed by a decrement the store
    answers. *)
Lemma fallback_hit_survives_decrement_witness :
  history
    (decrementRateLimit "u1" (Resolved (Some ["1000-0.5"; "1000"]))
       (Resolved None)
       (checkRateLimit "u1" (per_minute 5) 70000
          (Rejected (ClientError "ECONNREFUSED")) (attached two_hits)).2).2
    "u1"
  = [50000; 70000].
Proof.
  destruct (fallback_hit_survives_decrement (attached two_hits) "u1"
              (per_minute 5) 70000 60000 (Rejected (ClientError "ECONNREFUSED"))
              (Resolved (Some ["1000-0.5"; "1000"])) (Resolved None)
              (Redis "redis://localhost:6379") eq_refl eq_refl eq_refl eq_refl)
    as (Hhist & Hsame & _).
  unfold history in *. rewrite Hsame. exact Hhist.
Defined.

(** X8.  Shutdown forgets every hit and keeps the client handle: after
    [onModuleDestroy] no key has a history, a second shutdown changes
    nothing more, and the next check served by the local-memory path is the
    first hit of its key again. *)
Theorem onModuleDestroy_resets s :
  (onModuleDestroy s).1 = Normal tt
  /\ redis (onModuleDestroy s).2 = redis s
  /\ (forall key, history (onModuleDestroy s).2 key = [])
  /\ (onModuleDestroy (onModuleDestroy s).2).2 = (onModuleDestroy s).2
  /\ forall key options now exec W,
       parseWindow (window options) = Normal W ->
       local_path s exec ->
       exists r s',
         checkRateLimit key options now exec (onModuleDestroy s).2
         = (Normal r, s')
         /\ totalHits r = 1
         /\ allowed r = (1 <=? requests options).
Proof.
  split; [done|]. split; [done|]. split; [|split; [done|]].
  - intros key. unfold history. simpl. by rewrite lookup_empty.
  - intros key options now exec W HW Hlocal.
    edestruct (checkRateLimit_local key options now exec (onModuleDestroy s).2)
      as (s' & -> & _); [exact HW|exact Hlocal|].
    eexists _, s'. split; [done|]. unfold history. simpl.
    by rewrite lookup_empty.
Qed.

(** X8 at a service that held two hits. *)
Lemma onModuleDestroy_resets_witness :
  exists r s',
    checkRateLimit "u1" (per_minute 5) 51000 (Resolved None)
      (onModuleDestroy (with_storage two_hits)).2 = (Normal r, s')
    /\ totalHits r = 1
    /\ allowed r = (1 <=? requests (per_minute 5)).
Proof.
  apply (proj2 (proj2 (proj2 (proj2
           (onModuleDestroy_resets (with_storage two_hits)))))
           "u1" (per_minute 5) 51000 (Resolved None) 60000 eq_refl
           (or_introl eq_refl)).
Defined.

End Compensation.

(** ** Windows as the store path and the callers see them *)

Section WindowExtras.

Lemma parseWindow_small (window : string) (W : Z) :
  parseWindow window = Normal W -> W < 2 ^ 53 ->
  exists amount unit m,
    well_formed window amount unit /\ multiplier_of unit m
    /\ W = decimal_value amount * m.
Proof.
  intros (amount & unit & m & Hw & Hm & ->)%parseWindow_Normal Hsmall.
  exists amount, unit, m. split; [done|]. split; [done|].
  pose proof (decimal_value_nonneg amount) as Hd.
  assert (1 <= m) by (destruct Hm; lia).
  pose proof (to_double_nonneg _ Hd) as Hr.
  apply to_double_small in Hsmall as Hprod; [|nia].
  assert (to_double (decimal_value amount) < 2 ^ 53) as Hamount by nia.
  apply to_double_small in Hamount as Hexact; [|done].
  rewrite (to_double_exact (decimal_value amount)) in * by lia.
  by rewrite to_double_exact by nia.
Qed.

Lemma parseWindow_seconds (window : string) (W : Z) :
  parseWindow window = Normal W -> W < 2 ^ 53 ->
  exists seconds, W = seconds * 1000 /\ 0 <= seconds.
Proof.
  intros HW Hsmall.
  destruct (parseWindow_small window W HW Hsmall)
    as (amount & unit & m & _ & Hm & ->).
  pose proof (decimal_value_nonneg amount).
  destruct Hm.
  - exists (decimal_value amount). lia.
  - exists (decimal_value amount * 60). lia.
  - exists (decimal_value amount * 3600). lia.
  - exists (decimal_value amount * 86400). lia.
Qed.

Lemma ceil_seconds_exact (seconds : Z) : ceil_seconds (seconds * 1000) = seconds.
Proof.
  unfold ceil_seconds.
  replace (- (seconds * 1000)) with ((- seconds) * 1000) by lia.
  rewrite Z.div_mul by lia. lia.
Qed.

(** X9.  Every window that is parsed to less than 2^53 milliseconds is a
    whole, non-negative number of seconds: rounding it up to seconds, as
    [redisRateLimit] does for the expiry of the key and the guard for its
    headers, loses nothing.  Beyond that bound the parsed value need not be
    a multiple of 1000: "72057594037929s" is parsed to 72057594037928992. *)
Theorem parsed_window_whole_seconds (window : string) (W : Z) :
  parseWindow window = Normal W ->
  W < 2 ^ 53 ->
  0 <= ceil_seconds W
  /\ ceil_seconds W * 1000 = W
  /\ parseWindow "72057594037929s" = Normal 72057594037928992.
Proof.
  intros HW Hsmall.
  destruct (parseWindow_seconds window W HW Hsmall) as (seconds & -> & Hpos).
  rewrite ceil_seconds_exact. split; [done|]. split; [done|]. reflexivity.
Qed.

(** X9 at a window of five minutes. *)
Lemma parsed_window_whole_seconds_witness :
  0 <= ceil_seconds 300000 /\ ceil_seconds 300000 * 1000 = 300000.
Proof.
  destruct (parsed_window_whole_seconds "5m" 300000 eq_refl eq_refl)
    as (Hpos & Hexact & _).
  split; [exact Hpos|exact Hexact].
Defined.

(** X10.  Zeros in front of the digits do not change what a window parses
    to: they are read as decimal padding, never as an octal prefix. *)
Theorem parseWindow_leading_zero (window : string) (W : Z) :
  parseWindow window = Normal W ->
  parseWindow (String "0" window) = Normal W.
Proof.
  intros (amount & unit & m & Hw & Hm & ->)%parseWindow_Normal.
  destruct Hw as (-> & Hne & Ha & Hu).
  rewrite (parseWindow_well_formed (String "0" (amount +:+ String unit EmptyString))
             (String "0" amount) unit m); [|by repeat split|done].
  f_equal; simpl; lia.
Qed.

(** X10 at "007d". *)
Lemma parseWindow_leading_zero_witness :
  parseWindow "07d" = Normal 604800000
  /\ parseWindow "007d" = Normal 604800000.
Proof.
  split; [reflexivity|].
  exact (parseWindow_leading_zero "07d" 604800000 eq_refl).
Defined.

End WindowExtras.

(** ** The guard *)

Section GuardProperties.

Implicit Types (options : RouteOptions) (request : Request)
  (now nowHeaders nowThrow : Z) (exec : Reply ExecResult) (w : Guard.World).

(** X11.  The guard fails open on a malformed window: [canActivate] lets the
    request through, writes no header and leaves the service as it was, so a
    route configured with such a window is not limited at all. *)
Theorem guard_fails_open options request now nowHeaders nowThrow exec w
    (error : JsError) :
  parseWindow (window (policy options)) = Throw error ->
  let after :=
    Guard.canActivate (Some options) request now nowHeaders nowThrow exec w in
  after.1 = Guard.Returns true
  /\ Guard.headers after.2 = Guard.headers w
  /\ Guard.rateLimitService after.2 = Guard.rateLimitService w.
Proof.
  intros Hbad. simpl. unfold Guard.canActivate_try.
  by rewrite (checkRateLimit_throws _ _ _ _ _ error).
Qed.

(** X11 at a window without unit. *)
Lemma guard_fails_open_witness :
  (Guard.canActivate (Some (route_options 1 "60" false)) local_request
     1000 1000 1000 (Resolved None) (guard_world two_hits)).1
  = Guard.Returns true.
Proof.
  exact (proj1 (guard_fails_open (route_options 1 "60" false) local_request
                  1000 1000 1000 (Resolved None) (guard_world two_hits)
                  (InvalidWindowFormat "60") eq_refl)).
Defined.

(** X12.  [canActivate] either returns [true] or throws the 429 exception: it
    never returns [false] and never lets an error of the service through.
    It throws exactly when there is metadata and the check returned a count
    above the limit, and [retryAfter] is then the time left until the
    result's [resetTime], in seconds rounded up. *)
Theorem guard_decision (metadata : option RouteOptions) request now nowHeaders
    nowThrow exec w :
  let outcome :=
    (Guard.canActivate metadata request now nowHeaders nowThrow exec w).1 in
  (outcome = Guard.Returns true
   \/ exists retryAfter,
       outcome = Guard.Throws (Guard.HttpException 429 retryAfter))
  /\ forall thrown,
       outcome = Guard.Throws thrown
       <-> exists options result s',
            metadata = Some options
            /\ checkRateLimit (Guard.generateKey request options) (policy options)
                 now exec (Guard.rateLimitService w) = (Normal result, s')
            /\ requests (policy options) < totalHits result
            /\ thrown
               = Guard.HttpException 429
                   (ceil_seconds (resetTime result - nowThrow)).
Proof.
  destruct metadata as [options|]; simpl.
  2: { split; [by left|]. intros thrown. split; [done|].
       by intros (? & ? & ? & ? & _). }
  unfold Guard.canActivate_try.
  destruct (parseWindow (window (policy options))) as [W|error] eqn:HW.
  - destruct (checkRateLimit_returns (Guard.rateLimitService w)
                (Guard.generateKey request options) (policy options) now exec W HW)
      as (result & s' & Hrun & Hallowed & _).
    rewrite Hrun. destruct (allowed result) eqn:Hok; simpl.
    + split; [by left|]. intros thrown. split; [done|].
      intros (options' & result' & s'' & [= <-] & Hrun' & Hover & _).
      rewrite Hrun in Hrun'. injection Hrun' as <- <-.
      pose proof (proj1 Hallowed eq_refl). lia.
    + split; [right; eauto|]. intros thrown. split.
      * intros [= <-]. exists options, result, s'. repeat split; [done|].
        destruct (decide (totalHits result <= requests (policy options)))
          as [Hle|?]; [|lia].
        apply Hallowed in Hle. congruence.
      * intros (options' & result' & s'' & [= <-] & Hrun' & _ & ->).
        rewrite Hrun in Hrun'. by injection Hrun' as <- <-.
  - rewrite (checkRateLimit_throws _ _ _ _ _ error) by done. simpl.
    split; [by left|]. intros thrown. split; [done|].
    intros (options' & result' & s'' & [= <-] & Hrun' & _).
    by rewrite (checkRateLimit_throws _ _ _ _ _ error) in Hrun'.
Qed.




Lemma interceptor_key_agrees request options :
  (forall key,
      Interceptor.generateKey request options = Normal key ->
      Guard.generateKey request options = key)
  /\ (forall error,
         Interceptor.generateKey request options = Throw error
         <-> keyGenerator options = None
             /\ truthy_string (ip request) = false
             /\ socket request = None
             /\ error = TypeError)
  /\ (keyGenerator options = None ->
      truthy_string (ip request) = false ->
      socket request = None ->
      Guard.generateKey request options
      = default_key "unknown" (getRequestPath request)).
Proof.
  unfold Interceptor.generateKey, Guard.generateKey.
  destruct (keyGenerator options) as [generate|].
  { split; [by intros key [= <-]|]. split; [|done]. intros error.
    split; [done|]. by intros [? _]. }
  destruct (truthy_string (ip request)) eqn:Hip.
  { split; [by intros key [= <-]|]. split; [|done]. intros error.
    split; [done|]. by intros (_ & ? & _). }
  destruct (socket request) as [peer|]; simpl.
  - split; [by intros key [= <-]|]. split; [|done]. intros error.
    split; [done|]. by intros (_ & _ & ? & _).
  - split; [done|]. split; [|done]. intros error. split.
    + by intros [= <-].
    + by intros (_ & _ & _ & ->).
Qed.

(** X14.  The interceptor computes the key the guard computes whenever it
    computes one at all.  It throws instead, a [TypeError], exactly when
    there is no key generator, the request has neither a usable [ip] nor a
    socket; the guard names such a client "unknown". *)
Theorem interceptor_key_matches_guard request options :
  (forall key,
      Interceptor.generateKey request options = Normal key ->
      Guard.generateKey request options = key)
  /\ (forall error,
         Interceptor.generateKey request options = Throw error
         <-> keyGenerator options = None
             /\ truthy_string (ip request) = false
             /\ socket request = None
             /\ error = TypeError)
  /\ (keyGenerator options = None ->
      truthy_string (ip request) = false ->
      socket request = None ->
      Guard.generateKey request options
      = default_key "unknown" (getRequestPath request)).
Proof. apply interceptor_key_agrees. Qed.

Lemma append_nil_l (s : string) : EmptyString +:+ s = s.
Proof. reflexivity. Qed.

Lemma append_cons_l (c : ascii) (s t : string) :
  String c s +:+ t = String c (s +:+ t).
Proof. reflexivity. Qed.

Lemma append_cancel_l (prefix s t : string) :
  prefix +:+ s = prefix +:+ t -> s = t.
Proof.
  induction prefix as [|c prefix IH]; rewrite ?append_nil_l, ?append_cons_l.
  - done.
  - intros [= Heq]. by apply IH.
Qed.

Lemma address_path_injective (ip1 path1 ip2 path2 : string) :
  occurs "/" ip1 = false -> occurs "/" ip2 = false ->
  absolute path1 = true -> absolute path2 = true ->
  ip1 +:+ String ":" path1 = ip2 +:+ String ":" path2 ->
  ip1 = ip2 /\ path1 = path2.
Proof.
  intros Hip1 Hip2 Hpath1 Hpath2. revert ip2 Hip2.
  induction ip1 as [|c1 ip1 IH]; intros [|c2 ip2] Hip2;
    rewrite ?append_nil_l, ?append_cons_l.
  - by intros [= ->].
  - intros [= <- ->]. destruct ip2 as [|d ip2];
      rewrite ?append_nil_l, ?append_cons_l in Hpath1; simpl in *; [done|].
    apply Ascii.eqb_eq in Hpath1 as ->. simpl in Hip2. done.
  - intros [= -> <-]. destruct ip1 as [|d ip1];
      rewrite ?append_nil_l, ?append_cons_l in Hpath2; simpl in *; [done|].
    apply Ascii.eqb_eq in Hpath2 as ->. simpl in Hip1. done.
  - intros [= <- Heq]. simpl in Hip1, Hip2.
    apply orb_false_elim in Hip1 as [_ Hip1].
    apply orb_false_elim in Hip2 as [_ Hip2].
    destruct (IH Hip1 ip2 Hip2 Heq) as [-> ->]. done.
Qed.

Lemma default_key_injective (ip1 path1 ip2 path2 : string) :
  occurs "/" ip1 = false -> occurs "/" ip2 = false ->
  absolute path1 = true -> absolute path2 = true ->
  default_key ip1 path1 = default_key ip2 path2 ->
  ip1 = ip2 /\ path1 = path2.
Proof.
  intros Hip1 Hip2 Hpath1 Hpath2 Heq.
  apply address_path_injective; try done.
  apply (append_cancel_l "rate_limit:"). exact Heq.
Qed.

(** X15.  Without a key generator, two requests that carry an [ip] free of
    slashes and resolve to paths that start with a slash get the same key
    only if they have the same [ip] and the same path: the colons of an IPv6
    address or of a route parameter cannot make two clients or two routes
    share a counter. *)
Theorem guard_keys_distinct (request1 request2 : Request)
    (options1 options2 : RouteOptions) (ip1 ip2 : string) :
  keyGenerator options1 = None -> keyGenerator options2 = None ->
  ip request1 = Some ip1 -> ip request2 = Some ip2 ->
  ip1 <> EmptyString -> ip2 <> EmptyString ->
  occurs "/" ip1 = false -> occurs "/" ip2 = false ->
  absolute (getRequestPath request1) = true ->
  absolute (getRequestPath request2) = true ->
  Guard.generateKey request1 options1 = Guard.generateKey request2 options2 ->
  ip1 = ip2 /\ getRequestPath request1 = getRequestPath request2.
Proof.
  intros Hgen1 Hgen2 Hip1 Hip2 Hne1 Hne2 Hs1 Hs2 Hp1 Hp2.
  unfold Guard.generateKey. rewrite Hgen1, Hgen2, Hip1, Hip2. simpl.
  assert (forall text, text <> EmptyString -> negb (String.eqb text "") = true)
    as Htruthy.
  { intros text Hne. destruct (String.eqb_spec text ""); done. }
  rewrite !Htruthy by done.
  by apply default_key_injective.
Qed.

(** X15 at an IPv6 loopback address and a route with a parameter. *)
Lemma guard_keys_distinct_witness :
  Guard.generateKey routed_request (route_options 3 "1m" false)
  = Guard.generateKey unrouted_request (route_options 5 "1h" true)
  /\ ("::1" : string) = "::1"
  /\ getRequestPath routed_request = getRequestPath unrouted_request.
Proof.
  assert (Guard.generateKey routed_request (route_options 3 "1m" false)
          = Guard.generateKey unrouted_request (route_options 5 "1h" true))
    as Hsame by reflexivity.
  split; [exact Hsame|].
  apply (guard_keys_distinct routed_request unrouted_request
           (route_options 3 "1m" false) (route_options 5 "1h" true)
           "::1" "::1"); try reflexivity; discriminate.
Defined.

End GuardProperties.

(** ** The interceptor, the decorator, and the guard with them *)

Section InterceptorProperties.

Implicit Types (options : RouteOptions) (request : Request) (key : string)
  (statusCode now nowHeaders nowThrow : Z) (exec : Reply ExecResult)
  (zrevrange : Reply (option (list string))) (w : Interceptor.World).

Lemma handleResponse_service key statusCode options zrevrange exec w :
  Interceptor.rateLimitService
    (Interceptor.handleResponse key statusCode options zrevrange exec w)
  = if Interceptor.skips_successful statusCode options
       || Interceptor.skips_failed statusCode options
    then (decrementRateLimit key zrevrange exec
            (Interceptor.rateLimitService w)).2
    else Interceptor.rateLimitService w.
Proof.
  unfold Interceptor.handleResponse.
  destruct (Interceptor.skips_successful statusCode options);
    destruct (Interceptor.skips_failed statusCode options); simpl; try done;
    by destruct (decrementRateLimit key zrevrange exec
                   (Interceptor.rateLimitService w)) as [[[]|e] s'].
Qed.

(** X16.  [handleResponse] takes the hit of a request back exactly when the
    status is 2xx and [skipSuccessfulRequests] is set, or the status is 400
    or more and [skipFailedRequests] is set; the service is then the one
    [decrementRateLimit] leaves.  A status below 200 or from 300 to 399 is
    never taken back, whatever the flags, and the interceptor's error branch
    is never taken: nothing is logged at error level. *)
Theorem handleResponse_takes_back key statusCode options zrevrange exec w :
  let after := Interceptor.handleResponse key statusCode options zrevrange exec w in
  let skip :=
    Interceptor.skips_successful statusCode options
    || Interceptor.skips_failed statusCode options in
  (skip = true
   <-> (truthy_flag (skipSuccessfulRequests options) = true
        /\ 200 <= statusCode < 300)
       \/ (truthy_flag (skipFailedRequests options) = true
           /\ 400 <= statusCode))
  /\ (skip = true ->
      Interceptor.rateLimitService after
      = (decrementRateLimit key zrevrange exec
           (Interceptor.rateLimitService w)).2)
  /\ (skip = false -> after = w)
  /\ (statusCode < 200 \/ 300 <= statusCode < 400 -> after = w)
  /\ forall line,
       line ∈ Interceptor.interceptorLogger after ->
       line ∈ Interceptor.interceptorLogger w \/ line.1 = LogDebug.
Proof.
  intros after skip.
  assert (skip = true
          <-> (truthy_flag (skipSuccessfulRequests options) = true
               /\ 200 <= statusCode < 300)
              \/ (truthy_flag (skipFailedRequests options) = true
                  /\ 400 <= statusCode)) as Hskip.
  { unfold skip, Interceptor.skips_successful, Interceptor.skips_failed.
    rewrite orb_true_iff, !andb_true_iff, !Z.leb_le, Z.ltb_lt. tauto. }
  assert (skip = false -> after = w) as Hnot.
  { unfold after, skip, Interceptor.handleResponse. intros Hfalse.
    apply orb_false_elim in Hfalse as [-> ->]. done. }
  split; [exact Hskip|]. split; [|split; [exact Hnot|split]].
  - intros Htrue. unfold after. rewrite handleResponse_service.
    fold skip. by rewrite Htrue.
  - intros Hstatus. apply Hnot. destruct skip; [|done].
    destruct (proj1 Hskip eq_refl) as [[_ ?]|[_ ?]]; lia.
  - unfold after, Interceptor.handleResponse.
    pose proof (decrementRateLimit_returns (Interceptor.rateLimitService
      (if Interceptor.skips_failed statusCode options
       then Interceptor.interceptor_log LogDebug
              "Skipping rate limit increment for failed request"
              (if Interceptor.skips_successful statusCode options
               then Interceptor.interceptor_log LogDebug
                      "Skipping rate limit increment for successful request" w
               else w)
       else (if Interceptor.skips_successful statusCode options
             then Interceptor.interceptor_log LogDebug
                    "Skipping rate limit increment for successful request" w
             else w))) key zrevrange exec) as Hret.
    destruct (Interceptor.skips_successful statusCode options);
      destruct (Interceptor.skips_failed statusCode options); simpl in *;
      try (destruct (decrementRateLimit key zrevrange exec
                       (Interceptor.rateLimitService w)) as [[[]|e] s'];
           simpl in Hret; [|done]);
      simpl; intros line Hline;
      repeat (apply elem_of_app in Hline as [Hline|Hline]);
      try (by left);
      apply list_elem_of_singleton in Hline; subst line; by right.
Qed.

(** X17.  A handler error that carries no status, or the status 0, is handled
    as a 500: with [skipFailedRequests] set the interceptor takes the hit of
    the failed request back. *)
Theorem statusless_error_is_taken_back options request key zrevrange exec w
    (status responseStatusCode : option Z) :
  Interceptor.generateKey request options = Normal key ->
  truthy_number status = false ->
  truthy_number responseStatusCode = false ->
  truthy_flag (skipFailedRequests options) = true ->
  let after :=
    Interceptor.intercept (Some options) request
      (Interceptor.Failed status responseStatusCode) zrevrange exec w in
  Interceptor.event_status (Interceptor.Failed status responseStatusCode) = 500
  /\ after.1 = Normal tt
  /\ Interceptor.rateLimitService after.2
     = (decrementRateLimit key zrevrange exec
          (Interceptor.rateLimitService w)).2.
Proof.
  intros Hkey Hstatus Hresponse Hflag. simpl.
  unfold Interceptor.error_status. rewrite Hkey, Hstatus, Hresponse. simpl.
  split; [done|]. split; [done|].
  rewrite handleResponse_service.
  unfold Interceptor.skips_failed. by rewrite Hflag, orb_true_r.
Qed.

(** X17 at an error without any status. *)
Lemma statusless_error_is_taken_back_witness :
  history
    (Interceptor.rateLimitService
       (Interceptor.intercept
          (Some {| policy := per_minute 5; keyGenerator := None;
                   skipSuccessfulRequests := None;
                   skipFailedRequests := Some true |})
          local_request (Interceptor.Failed None None) (Resolved None)
          (Resolved None)
          (interceptor_world
             (with_storage {[ "rate_limit:10.0.0.7:/login" := [1000; 2000] ]}))).2)
    "rate_limit:10.0.0.7:/login"
  = [1000].
Proof.
  destruct (statusless_error_is_taken_back
              {| policy := per_minute 5; keyGenerator := None;
                 skipSuccessfulRequests := None;
                 skipFailedRequests := Some true |}
              local_request "rate_limit:10.0.0.7:/login" (Resolved None)
              (Resolved None)
              (interceptor_world
                 (with_storage {[ "rate_limit:10.0.0.7:/login" := [1000; 2000] ]}))
              None None eq_refl eq_refl eq_refl eq_refl)
    as (_ & _ & Hservice).
  rewrite Hservice. reflexivity.
Defined.

Lemma handle_notifications_history key options
    (notifications :
       list (Interceptor.HandlerEvent
             * (Reply (option (list string)) * Reply ExecResult))) : forall w,
  redis (Interceptor.rateLimitService w) = None ->
  history
    (Interceptor.rateLimitService
       (Interceptor.handle_notifications key options notifications w)) key
  = take (length (history (Interceptor.rateLimitService w) key)
          - Interceptor.taken_back options notifications)
      (history (Interceptor.rateLimitService w) key).
Proof.
  induction notifications as [|[event [zrevrange exec]] rest IH]; intros w Hredis.
  { simpl. by rewrite Nat.sub_0_r, firstn_all. }
  assert (exists w1,
             Interceptor.handleResponse key (Interceptor.event_status event)
               options zrevrange exec w = w1
             /\ redis (Interceptor.rateLimitService w1) = None
             /\ history (Interceptor.rateLimitService w1) key
                = take (length (history (Interceptor.rateLimitService w) key)
                        - (if Interceptor.skips_successful
                                (Interceptor.event_status event) options
                              || Interceptor.skips_failed
                                   (Interceptor.event_status event) options
                           then 1 else 0))
                    (history (Interceptor.rateLimitService w) key))
    as (w1 & Hw1 & Hredis1 & Hhist1).
  { eexists. split; [done|]. rewrite handleResponse_service.
    destruct (_ || _).
    - destruct (decrementRateLimit_history (Interceptor.rateLimitService w) key
                  zrevrange exec Hredis) as (_ & ? & -> & _).
      split; [done|]. apply removelast_take.
    - split; [done|]. by rewrite Nat.sub_0_r, firstn_all. }
  simpl. rewrite Hw1. destruct event as [statusCode|status responseStatusCode].
  - rewrite (IH w1 Hredis1), Hhist1, take_take, length_take. f_equal. lia.
  - rewrite Hhist1, Nat.add_0_r. done.
Qed.

(** X18.  Guard and interceptor together, with no client attached and a
    window that is not empty, for a request the guard admitted: every
    notification of the handler that falls under a skip option takes one hit
    of the key back, the newest first.  A handler that emits once under a
    skip option leaves no hit of its request behind; one that emits nothing
    under a skip option leaves the hit counted; one that emits twice under a
    skip option also takes back a hit recorded before. *)
Theorem skipped_request_leaves_no_hit options request key now nowHeaders
    nowThrow exec
    (notifications :
       list (Interceptor.HandlerEvent
             * (Reply (option (list string)) * Reply ExecResult)))
    (guard : Guard.World) (lines : list (LogLevel * string)) (W : Z) :
  parseWindow (window (policy options)) = Normal W ->
  0 < W ->
  redis (Guard.rateLimitService guard) = None ->
  Interceptor.generateKey request options = Normal key ->
  (Guard.canActivate (Some options) request now nowHeaders nowThrow exec
     guard).1 = Guard.Returns true ->
  let checked :=
    Guard.canActivate (Some options) request now nowHeaders nowThrow exec guard in
  let handled :=
    Interceptor.intercept_stream (Some options) request notifications
      {| Interceptor.rateLimitService := Guard.rateLimitService checked.2;
         Interceptor.interceptorLogger := lines |} in
  let kept := in_window (now - W) (history (Guard.rateLimitService guard) key) in
  let after := history (Interceptor.rateLimitService handled.2) key in
  handled.1 = Normal tt
  /\ after
     = take (length kept + 1 - Interceptor.taken_back options notifications)
         (kept ++ [now])
  /\ (Interceptor.taken_back options notifications = 0%nat ->
      after = kept ++ [now])
  /\ (Interceptor.taken_back options notifications = 1%nat -> after = kept)
  /\ (Interceptor.taken_back options notifications = 2%nat ->
      after = removelast kept).
Proof.
  intros HW Hpos Hredis Hkey Hadmitted checked handled kept after.
  assert (Guard.rateLimitService checked.2
          = (checkRateLimit key (policy options) now exec
               (Guard.rateLimitService guard)).2) as Hservice.
  { unfold checked. simpl. unfold Guard.canActivate_try.
    rewrite (proj1 (interceptor_key_agrees request options) key Hkey).
    destruct (checkRateLimit key (policy options) now exec
                (Guard.rateLimitService guard)) as [[result|error] s']; simpl;
      [by destruct (allowed result)|done]. }
  destruct (checkRateLimit_local key (policy options) now exec
              (Guard.rateLimitService guard) W HW (or_introl Hredis))
    as (s1 & Hrun & Hredis1 & Hstorage).
  rewrite Hrun in Hservice. simpl in Hservice.
  assert (history s1 key = kept ++ [now]) as Hs1.
  { unfold history at 1. rewrite Hstorage.
    destruct (local_storage_key key W now
                (fallbackStorage (Guard.rateLimitService guard))) as [H|[? _]];
      [done|lia]. }
  assert (after
          = take (length kept + 1 - Interceptor.taken_back options notifications)
              (kept ++ [now])) as Hafter.
  { unfold after, handled, Interceptor.intercept_stream. rewrite Hkey. simpl.
    rewrite handle_notifications_history; simpl; rewrite Hservice.
    - rewrite Hs1, length_app. done.
    - congruence. }
  split; [by unfold handled, Interceptor.intercept_stream; rewrite Hkey|].
  split; [exact Hafter|]. rewrite Hafter. split; [|split].
  - intros ->. rewrite Nat.sub_0_r.
    replace (length kept + 1)%nat with (length (kept ++ [now]))
      by (rewrite length_app; done).
    apply firstn_all.
  - intros ->. replace (length kept + 1 - 1)%nat with (length kept) by lia.
    apply take_app_length.
  - intros ->. rewrite removelast_take, take_app_le by lia.
    f_equal. lia.
Qed.

(** X18 at a successful response on a route that skips successful
    requests. *)
Lemma skipped_request_leaves_no_hit_witness :
  history
    (Interceptor.rateLimitService
       (Interceptor.intercept_stream (Some (route_options 5 "1m" true))
          local_request
          [(Interceptor.Emitted 200, (Resolved None, Resolved None))]
          {| Interceptor.rateLimitService :=
               Guard.rateLimitService
                 (Guard.canActivate (Some (route_options 5 "1m" true))
                    local_request 3000 3000 3000 (Resolved None)
                    (guard_world login_hits)).2;
             Interceptor.interceptorLogger := [] |}).2)
    login_key
  = [1000; 2000].
Proof.
  destruct (skipped_request_leaves_no_hit (route_options 5 "1m" true)
              local_request login_key 3000 3000 3000 (Resolved None)
              [(Interceptor.Emitted 200, (Resolved None, Resolved None))]
              (guard_world login_hits) [] 60000
              eq_refl eq_refl eq_refl eq_refl eq_refl)
    as (_ & _ & _ & Hone & _).
  rewrite Hone; reflexivity.
Defined.

(** X19.  On the local-memory path the guard refuses a request exactly when
    the window already holds at least [limit] hits of the key.  The refused
    request is recorded like an admitted one, so a client that keeps
    retrying inside the window keeps being refused. *)
Theorem guard_refuses_at_limit options request now nowHeaders nowThrow exec
    (guard : Guard.World) (W : Z) :
  parseWindow (window (policy options)) = Normal W ->
  0 < W ->
  local_path (Guard.rateLimitService guard) exec ->
  let key := Guard.generateKey request options in
  let kept := in_window (now - W) (history (Guard.rateLimitService guard) key) in
  let checked :=
    Guard.canActivate (Some options) request now nowHeaders nowThrow exec guard in
  (checked.1 = Guard.Returns true
   <-> Z.of_nat (length kept) < requests (policy options))
  /\ (checked.1
      = Guard.Throws (Guard.HttpException 429 (ceil_seconds (now + W - nowThrow)))
      <-> requests (policy options) <= Z.of_nat (length kept))
  /\ history (Guard.rateLimitService checked.2) key = kept ++ [now].
Proof.
  intros HW Hpos Hlocal key kept checked.
  destruct (checkRateLimit_local key (policy options) now exec
              (Guard.rateLimitService guard) W HW Hlocal)
    as (s' & Hrun & _ & Hstorage).
  assert (history s' key = kept ++ [now]) as Hhist.
  { unfold history at 1. rewrite Hstorage.
    destruct (local_storage_key key W now
                (fallbackStorage (Guard.rateLimitService guard))) as [H|[? _]];
      [done|lia]. }
  unfold checked. simpl. unfold Guard.canActivate_try. fold key. rewrite Hrun.
  pose proof (local_result_hits (policy options) W now
                (history (Guard.rateLimitService guard) key)) as Hhits.
  fold kept in Hhits.
  destruct (allowed (local_result (policy options) W now
                       (history (Guard.rateLimitService guard) key))) eqn:Hok;
    simpl in Hok |- *.
  - apply Z.leb_le in Hok. fold kept in Hok. rewrite length_app in Hok.
    simpl in Hok. split; [|split; [|done]].
    + split; [lia|done].
    + split; [done|lia].
  - apply Z.leb_gt in Hok. fold kept in Hok. rewrite length_app in Hok.
    simpl in Hok. split; [|split; [|done]].
    + split; [done|lia].
    + split; [lia|done].
Qed.

(** X19 at a limit of 2 with two hits in the window. *)
Lemma guard_refuses_at_limit_witness :
  (Guard.canActivate (Some (route_options 2 "1m" false)) local_request
     3000 3000 3500 (Resolved None) (guard_world login_hits)).1
  = Guard.Throws (Guard.HttpException 429 (ceil_seconds (3000 + 60000 - 3500))).
Proof.
  apply (proj1 (proj2 (guard_refuses_at_limit (route_options 2 "1m" false)
                         local_request 3000 3000 3500 (Resolved None)
                         (guard_world login_hits) 60000 eq_refl eq_refl
                         (or_introl eq_refl)))).
  vm_compute. discriminate.
Defined.

(** X20.  The decorator fills what is left out with 100 requests per "1m"
    and keeps what is given, a limit of 0 and an empty window included.  A
    route decorated without arguments is limited to 100 per 60000 ms; one
    decorated with a limit of 0 is refused at every locally served request;
    one decorated with a window that does not parse is not limited at
    all. *)
Theorem decorator_defaults_and_edges (args : Decorator.DecoratorArguments)
    request now nowHeaders nowThrow exec (guard : Guard.World) :
  let options := Decorator.RateLimit args in
  let checked :=
    Guard.canActivate (Some options) request now nowHeaders nowThrow exec guard in
  (Decorator.arg_requests args = None -> Decorator.arg_window args = None ->
   requests (policy options) = 100
   /\ parseWindow (window (policy options)) = Normal 60000)
  /\ (Decorator.arg_requests args = Some 0 ->
      Decorator.arg_window args = None ->
      local_path (Guard.rateLimitService guard) exec ->
      checked.1
      = Guard.Throws (Guard.HttpException 429 (ceil_seconds (now + 60000 - nowThrow))))
  /\ (forall text error,
         Decorator.arg_window args = Some text ->
         parseWindow text = Throw error ->
         checked.1 = Guard.Returns true
         /\ Guard.rateLimitService checked.2 = Guard.rateLimitService guard)
  /\ keyGenerator options = Decorator.arg_keyGenerator args
  /\ truthy_flag (skipSuccessfulRequests options)
     = truthy_flag (Decorator.arg_skipSuccessfulRequests args)
  /\ truthy_flag (skipFailedRequests options)
     = truthy_flag (Decorator.arg_skipFailedRequests args).
Proof.
  intros options checked. split; [|split; [|split; [|split; [|split]]]].
  - intros Hrequests Hwindow. unfold options. simpl.
    by rewrite Hrequests, Hwindow.
  - intros Hrequests Hwindow Hlocal.
    assert (parseWindow (window (policy options)) = Normal 60000) as HW.
    { unfold options. simpl. by rewrite Hwindow. }
    destruct (checkRateLimit_local (Guard.generateKey request options)
                (policy options) now exec (Guard.rateLimitService guard) 60000
                HW Hlocal) as (s' & Hrun & _).
    unfold checked. simpl. unfold Guard.canActivate_try. rewrite Hrun.
    unfold options at 2. simpl. rewrite Hrequests. simpl.
    rewrite length_app. simpl.
    destruct (_ <=? 0) eqn:Hle; [apply Z.leb_le in Hle; lia|done].
  - intros text error Hwindow Hbad.
    assert (parseWindow (window (policy options)) = Throw error) as HW.
    { unfold options. simpl. by rewrite Hwindow. }
    unfold checked. simpl. unfold Guard.canActivate_try.
    by rewrite (checkRateLimit_throws _ _ _ _ _ error).
  - done.
  - unfold options. simpl. by destruct (Decorator.arg_skipSuccessfulRequests args).
  - unfold options. simpl. by destruct (Decorator.arg_skipFailedRequests args).
Qed.

(** X20 at a decorator given only a limit of 0. *)
Lemma decorator_defaults_and_edges_witness :
  (Guard.canActivate
     (Some (Decorator.RateLimit
              {| Decorator.arg_requests := Some 0;
                 Decorator.arg_window := None;
                 Decorator.arg_keyGenerator := None;
                 Decorator.arg_skipSuccessfulRequests := None;
                 Decorator.arg_skipFailedRequests := None |}))
     local_request 3000 3000 3000 (Resolved None) (guard_world ∅)).1
  = Guard.Throws (Guard.HttpException 429 (ceil_seconds (3000 + 60000 - 3000))).
Proof.
  exact (proj1 (proj2 (decorator_defaults_and_edges
                         {| Decorator.arg_requests := Some 0;
                            Decorator.arg_window := None;
                            Decorator.arg_keyGenerator := None;
                            Decorator.arg_skipSuccessfulRequests := None;
                            Decorator.arg_skipFailedRequests := None |}
                         local_request 3000 3000 3000 (Resolved None)
                         (guard_world ∅)))
           eq_refl eq_refl (or_introl eq_refl)).
Defined.

End InterceptorProperties.
